(** * XML field mapper: canonicalisation of <option> records and the
      before/after reconciliation report

    A shallow embedding of [Streamlit_XML_AI_Agent.py]: the tokenizer
    ([_split], [_split_field]), [generate_clean_xml_from_root] (flatten,
    union of dependents per value, merge by identical dependents, rebuild)
    and the export pass that numbers the groups and emits one report row
    per value.

    Conventions of the embedding.
    - A Python [str] is a [string]; a character is an 8-bit code point.
    - An attribute read with [e.get(k)] is an [option string]: [None] is
      Python's [None], the attribute is absent.
    - A Python [set]/[frozenset] is a [gset]; [==] on frozensets is [=].
      A [dict] that is only looked up is a [gmap]; the one dict whose
      iteration order is observed ([seen_dep_sets]) is an insertion-ordered
      association list.
    - An XML text is represented by the element tree it denotes, restricted
      to what the program reads: the root's attributes, its <option>
      children (what [findall("option")] returns), their [name] and [value]
      attributes and their <dependent> children with [id] and [name].
      [ET.fromstring] of a text produced by [ET.tostring] gives that tree
      back. *)

From Stdlib Require Import Ascii String.
From stdpp Require Import gmap strings list pretty sorting.

Open Scope string_scope.
Open Scope list_scope.

(** ** Exceptions *)

Inductive exn := TypeError | KeyError.

Inductive result (A : Type) :=
  | Ok (a : A)
  | Raise (e : exn).
Arguments Ok {A} a.
Arguments Raise {A} e.

#[global] Instance result_ret : MRet result := λ A, Ok.
#[global] Instance result_bind : MBind result := λ A B k r,
  match r with
  | Ok a => k a
  | Raise e => Raise e
  end.

(** ** Strings: [str.split(",")], [str.strip()], [",".join] *)

Module Str.

(** [c.isspace()] for the code points below 256. *)
Definition is_space (c : ascii) : bool :=
  let n := nat_of_ascii c in
  ((9 <=? n)%nat && (n <=? 13)%nat) || ((28 <=? n)%nat && (n <=? 32)%nat)
  || (n =? 133)%nat || (n =? 160)%nat.

Definition comma : ascii := ","%char.

Fixpoint lstrip (s : string) : string :=
  match s with
  | String c s' => if is_space c then lstrip s' else s
  | EmptyString => EmptyString
  end.

Fixpoint rstrip (s : string) : string :=
  match s with
  | String c s' =>
      match rstrip s' with
      | EmptyString => if is_space c then EmptyString else String c EmptyString
      | r => String c r
      end
  | EmptyString => EmptyString
  end.

(** [s.strip()] *)
Definition strip (s : string) : string := lstrip (rstrip s).

(** [s.split(",")]: one piece more than there are commas. *)
Fixpoint split (s : string) : list string :=
  match s with
  | EmptyString => [EmptyString]
  | String c s' =>
      if decide (c = comma) then EmptyString :: split s'
      else match split s' with
           | h :: t => String c h :: t
           | [] => [String c EmptyString]
           end
  end.

(** [",".join(l)] *)
Definition join (l : list string) : string := String.concat "," l.

Fixpoint has_comma (s : string) : bool :=
  match s with
  | String c s' => bool_decide (c = comma) || has_comma s'
  | EmptyString => false
  end.

(** What every token of the tokenizer satisfies: not empty, nothing left to
    strip, no comma inside. *)
Definition token (s : string) : Prop :=
  s ≠ "" ∧ strip s = s ∧ has_comma s = false.

End Str.

(** ** Tokenizer *)

(** [_split] (local to [generate_clean_xml_from_root]) and [_split_field]
    have the same body up to the order of the test on [text]. *)
Definition _split (text : string) : list string :=
  if decide (text ≠ "")
  then filter (λ t, t ≠ "") (Str.strip <$> Str.split text)
  else [].

Definition _split_field (text : string) : list string :=
  if decide (text = "") then []
  else filter (λ t, t ≠ "") (Str.strip <$> Str.split text).

(** ** Element trees *)

(** A parsed <dependent>: [d.get("id")], [d.get("name")]. *)
Record dependent := Dependent {
  dep_id : option string;
  dep_name : option string
}.

(** A parsed <option>: [opt.get("name")], [opt.get("value")],
    [opt.findall("dependent")]. *)
Record option_el := OptionEl {
  opt_name : option string;
  opt_value : option string;
  opt_dependents : list dependent
}.

(** A parsed document: [root.attrib] and [root.findall("option")]. *)
Record document := Document {
  root_attrib : list (string * string);
  root_options : list option_el
}.

(** The tree built in step 4, before it is serialised.  Its attributes are
    Python values: [nd_id] is whatever [dep_id] was, [None] included.  The
    constant attributes [type="0"], [reset="false"], [retainonedit="false"]
    of every new <dependent> are left out: nothing reads them. *)
Record new_dependent := NewDependent {
  nd_id : option string;
  nd_name : string
}.

Record new_option := NewOption {
  no_name : string;
  no_value : string;
  no_dependents : list new_dependent
}.

Record new_root := NewRoot {
  nr_attrib : list (string * string);
  nr_options : list new_option
}.

(** [ET.tostring] raises [TypeError] ("cannot serialize None") on an
    attribute whose value is not a string. *)
Definition tostring_dependent (d : new_dependent) : result dependent :=
  match nd_id d with
  | Some i => Ok (Dependent (Some i) (Some (nd_name d)))
  | None => Raise TypeError
  end.

Fixpoint tostring_dependents (ds : list new_dependent) : result (list dependent) :=
  match ds with
  | [] => Ok []
  | d :: ds' =>
      d' ← tostring_dependent d;
      ds'' ← tostring_dependents ds';
      Ok (d' :: ds'')
  end.

Definition tostring_option (o : new_option) : result option_el :=
  ds ← tostring_dependents (no_dependents o);
  Ok (OptionEl (Some (no_name o)) (Some (no_value o)) ds).

Fixpoint tostring_options (os : list new_option) : result (list option_el) :=
  match os with
  | [] => Ok []
  | o :: os' =>
      o' ← tostring_option o;
      os'' ← tostring_options os';
      Ok (o' :: os'')
  end.

(** [_prettify_xml]: the indentation only touches [text] and [tail]. *)
Definition _prettify_xml (r : new_root) : result document :=
  os ← tostring_options (nr_options r);
  Ok (Document (nr_attrib r) os).

(** ** Python containers *)

(** [if x not in l: l.append(x)] *)
Definition push_unique `{EqDecision A} (x : A) (l : list A) : list A :=
  if decide (x ∈ l) then l else l ++ [x].

(** An insertion-ordered dict as an association list. *)
Fixpoint od_get `{EqDecision K} {V} (k : K) (d : list (K * V)) : option V :=
  match d with
  | [] => None
  | (k', v) :: d' => if decide (k = k') then Some v else od_get k d'
  end.

(** [d[k] = v]: in place when [k] is a key of [d], at the end otherwise. *)
Fixpoint od_set `{EqDecision K} {V} (k : K) (v : V) (d : list (K * V)) : list (K * V) :=
  match d with
  | [] => [(k, v)]
  | (k', v') :: d' => if decide (k = k') then (k, v) :: d' else (k', v') :: od_set k v d'
  end.

(** ** [generate_clean_xml_from_root] *)

Abbreviation dep_set := (gset (option string)).

Record flat_item := FlatItem {
  fi_name : string;
  fi_value : string;
  fi_deps : dep_set
}.

Record group := Group {
  g_names : list string;
  g_values : list string;
  g_deps : dep_set
}.

(** State of the loop of step 1. *)
Record flat_state := FlatState {
  flat : list flat_item;
  dep_id_to_name : gmap (option string) string;
  name_to_value : gmap string string
}.

Definition names_of (opt : option_el) : list string := _split (default "" (opt_name opt)).
Definition values_of (opt : option_el) : list string := _split (default "" (opt_value opt)).

(** [dep_ids] after the loop over [deps]. *)
Definition dep_ids_of (opt : option_el) : list (option string) :=
  dep_id <$> opt_dependents opt.

(** [if dep_id not in dep_id_to_name: dep_id_to_name[dep_id] = dep_name] *)
Definition note_dependent (m : gmap (option string) string) (d : dependent)
    : gmap (option string) string :=
  let dep_id := dep_id d in
  let dep_name := default "" (dep_name d) in
  match m !! dep_id with
  | None => <[dep_id := dep_name]> m
  | Some _ => m
  end.

(** [values[idx] if idx < len(values) else values[-1] if values else ""] *)
Definition pair_value (values : list string) (idx : nat) : string :=
  match values !! idx with
  | Some v => v
  | None =>
      match last values with
      | Some v => v
      | None => ""
      end
  end.

Definition flatten_name (values : list string) (dep_ids : list (option string))
    (st : flat_state) (p : nat * string) : flat_state :=
  let '(idx, name) := p in
  let value := pair_value values idx in
  {| flat := flat st ++ [FlatItem name value (list_to_set dep_ids)];
     dep_id_to_name := dep_id_to_name st;
     name_to_value :=
       match name_to_value st !! name with
       | None => <[name := value]> (name_to_value st)
       | Some _ => name_to_value st
       end |}.

Definition flatten_option (st : flat_state) (opt : option_el) : flat_state :=
  let names := names_of opt in
  let values := values_of opt in
  let dep_ids := dep_ids_of opt in
  let st1 := {| flat := flat st;
                dep_id_to_name := foldl note_dependent (dep_id_to_name st) (opt_dependents opt);
                name_to_value := name_to_value st |} in
  foldl (flatten_name values dep_ids) st1 (imap pair names).

(** Step 1. *)
Definition flatten (root : document) : flat_state :=
  foldl flatten_option (FlatState [] ∅ ∅) (root_options root).

(** Step 2: [value_to_deps]. *)
Definition unify_item (value_to_deps : gmap string dep_set) (item : flat_item)
    : gmap string dep_set :=
  let val := fi_value item in
  <[val := default ∅ (value_to_deps !! val) ∪ fi_deps item]> value_to_deps.

Definition unify (fl : list flat_item) : gmap string dep_set :=
  foldl unify_item ∅ fl.

(** Step 3: one turn of the loop over [flat]; [value_to_deps[val]] raises
    [KeyError] on a missing key. *)
Definition merge_item (value_to_deps : gmap string dep_set)
    (seen_dep_sets : list (dep_set * group)) (item : flat_item)
    : result (list (dep_set * group)) :=
  let val := fi_value item in
  match value_to_deps !! val with
  | None => Raise KeyError
  | Some dep_key =>
      let group := default (Group [] [] dep_key) (od_get dep_key seen_dep_sets) in
      Ok (od_set dep_key
            (Group (push_unique (fi_name item) (g_names group))
                   (push_unique val (g_values group))
                   (g_deps group))
            seen_dep_sets)
  end.

Fixpoint merge_loop (value_to_deps : gmap string dep_set)
    (seen_dep_sets : list (dep_set * group)) (fl : list flat_item)
    : result (list (dep_set * group)) :=
  match fl with
  | [] => Ok seen_dep_sets
  | item :: fl' =>
      seen ← merge_item value_to_deps seen_dep_sets item;
      merge_loop value_to_deps seen fl'
  end.

(** [merged = list(seen_dep_sets.values())] *)
Definition merge (value_to_deps : gmap string dep_set) (fl : list flat_item)
    : result (list group) :=
  seen ← merge_loop value_to_deps [] fl;
  Ok (seen.*2).

(** Steps 1 to 3. *)
Definition merged_groups (root : document) : result (list group) :=
  let st := flatten root in
  merge (unify (flat st)) (flat st).

(** [str(dep_id)], the sort key of step 4. *)
Definition str_key (d : option string) : string :=
  match d with
  | Some s => s
  | None => "None"
  end.

Definition str_key_le (a b : option string) : Prop :=
  String.le (str_key a) (str_key b).

#[global] Instance str_key_le_dec : RelDecision str_key_le.
Proof. intros a b. unfold str_key_le. apply _. Defined.

(** [sorted(group["deps"], key=str)].  On a tie ([None] against the string
    "None") Python keeps the iteration order of the set, which it leaves
    unspecified; nothing below depends on the order of the dependents. *)
Definition sorted_deps (s : dep_set) : list (option string) :=
  merge_sort str_key_le (elements s).

(** Step 4, one group. *)
Definition rebuild_option (dep_id_to_name : gmap (option string) string)
    (g : group) : new_option :=
  {| no_name := Str.join (g_names g);
     no_value := Str.join (g_values g);
     no_dependents :=
       (λ dep_id, NewDependent dep_id (default "" (dep_id_to_name !! dep_id)))
         <$> sorted_deps (g_deps g) |}.

Definition rebuild (root : document) (dep_id_to_name : gmap (option string) string)
    (merged : list group) : new_root :=
  {| nr_attrib := root_attrib root;
     nr_options := rebuild_option dep_id_to_name <$> merged |}.

Definition generate_clean_xml_from_root (root : document) : result document :=
  let st := flatten root in
  merged ← merge (unify (flat st)) (flat st);
  _prettify_xml (rebuild root (dep_id_to_name st) merged).

(** ** The export pass: original groups, cleaned groups, hybrid numbering,
       report rows *)

Abbreviation value_set := (gset string).

(** [f"G{n}"] *)
Definition gid_of (n : nat) : string := "G" +:+ pretty n.

(** [f"{d.get('id')}:{d.get('name')}"] *)
Definition dep_string (d : dependent) : string :=
  str_key (dep_id d) +:+ ":" +:+ str_key (dep_name d).

(** [sorted(...)] on strings. *)
Definition sorted_strings (l : list string) : list string :=
  merge_sort String.le l.

Record original_group := OriginalGroup {
  og_id : string;
  og_values_set : value_set;
  og_names : list string;
  og_dependents : list string
}.

Record original_index := OriginalIndex {
  original_groups : list original_group;
  original_group_set_to_id : gmap value_set string;
  value_to_original_group_sets : gmap string (list value_set);
  value_to_original_deps : gmap string (gset string);
  g_count : nat
}.

(** Body of [for v in values] of the first loop. *)
Definition register_value (values_set : value_set) (deps : list string)
    (st : original_index) (v : string) : original_index :=
  {| original_groups := original_groups st;
     original_group_set_to_id := original_group_set_to_id st;
     value_to_original_group_sets :=
       <[v := default [] (value_to_original_group_sets st !! v) ++ [values_set]]>
         (value_to_original_group_sets st);
     value_to_original_deps :=
       <[v := default ∅ (value_to_original_deps st !! v) ∪ list_to_set deps]>
         (value_to_original_deps st);
     g_count := g_count st |}.

Definition index_original_option (st : original_index) (opt : option_el)
    : original_index :=
  let g_count := S (g_count st) in
  let gid := gid_of g_count in
  let names := _split_field (default "" (opt_name opt)) in
  let values := _split_field (default "" (opt_value opt)) in
  let values_set : value_set := list_to_set values in
  let deps := sorted_strings (dep_string <$> opt_dependents opt) in
  let st1 :=
    {| original_groups := original_groups st ++ [OriginalGroup gid values_set names deps];
       original_group_set_to_id :=
         match original_group_set_to_id st !! values_set with
         | None => <[values_set := gid]> (original_group_set_to_id st)
         | Some _ => original_group_set_to_id st
         end;
       value_to_original_group_sets := value_to_original_group_sets st;
       value_to_original_deps := value_to_original_deps st;
       g_count := g_count |} in
  foldl (register_value values_set deps) st1 values.

Definition index_original (root_original : document) : original_index :=
  foldl index_original_option (OriginalIndex [] ∅ ∅ ∅ 0) (root_options root_original).

Record cleaned_group := CleanedGroup {
  cg_names : list string;
  cg_values : list string;
  cg_dependents : list string;
  cg_values_set : value_set
}.

Definition clean_group_of (opt : option_el) : cleaned_group :=
  let names := _split_field (default "" (opt_name opt)) in
  let values := _split_field (default "" (opt_value opt)) in
  let deps := sorted_strings (dep_string <$> opt_dependents opt) in
  CleanedGroup names values deps (list_to_set values).

Definition cleaned_groups_of (root_clean : document) : list cleaned_group :=
  clean_group_of <$> root_options root_clean.

(** State of the hybrid numbering loop. *)
Record numbering := Numbering {
  next_g_index : nat;
  final_group_assignments : list string;
  used_new_ids : list string;
  final_valueset_to_gid : gmap value_set string
}.

Definition assign_group (original_group_set_to_id : gmap value_set string)
    (st : numbering) (cg : cleaned_group) : numbering :=
  let fvset := cg_values_set cg in
  match original_group_set_to_id !! fvset with
  | Some gid =>
      {| next_g_index := next_g_index st;
         final_group_assignments := final_group_assignments st ++ [gid];
         used_new_ids := used_new_ids st;
         final_valueset_to_gid := <[fvset := gid]> (final_valueset_to_gid st) |}
  | None =>
      match final_valueset_to_gid st !! fvset with
      | Some gid =>
          {| next_g_index := next_g_index st;
             final_group_assignments := final_group_assignments st ++ [gid];
             used_new_ids := used_new_ids st;
             final_valueset_to_gid := final_valueset_to_gid st |}
      | None =>
          let gid := gid_of (next_g_index st) in
          {| next_g_index := S (next_g_index st);
             final_group_assignments := final_group_assignments st ++ [gid];
             used_new_ids := used_new_ids st ++ [gid];
             final_valueset_to_gid := <[fvset := gid]> (final_valueset_to_gid st) |}
      end
  end.

Definition hybrid_numbering (ix : original_index) (cleaned_groups : list cleaned_group)
    : numbering :=
  foldl (assign_group (original_group_set_to_id ix))
        (Numbering (g_count ix + 1) [] [] ∅) cleaned_groups.

(** [value_to_original_name]: the loop "For original name mapping". *)
Definition note_original_name (values : list string) (m : gmap string string)
    (p : nat * string) : gmap string string :=
  let '(i, name) := p in
  let val := pair_value values i in
  if decide (val ≠ "") then
    match m !! val with
    | None => <[val := name]> m
    | Some _ => m
    end
  else m.

Definition original_names_option (m : gmap string string) (opt : option_el)
    : gmap string string :=
  let names := _split_field (default "" (opt_name opt)) in
  let values := _split_field (default "" (opt_value opt)) in
  foldl (note_original_name values) m (imap pair names).

Definition original_names (root_original : document) : gmap string string :=
  foldl original_names_option ∅ (root_options root_original).

Record row := Row {
  sr_no : nat;
  value_id : string;
  original_value_name : string;
  final_group_name : string;
  original_group_id : string;
  final_group_id : string;
  group_status : string;
  dependency_status : string;
  original_dependents : string;
  final_dependents : string
}.

(** The [for ogs in orig_group_sets] loop with its [break]. *)
Fixpoint find_matched (original_group_set_to_id : gmap value_set string)
    (final_values_set : value_set) (orig_group_sets : list value_set)
    : option string :=
  match orig_group_sets with
  | [] => None
  | ogs :: rest =>
      match decide (ogs = final_values_set), original_group_set_to_id !! ogs with
      | left _, Some gid => Some gid
      | _, _ => find_matched original_group_set_to_id final_values_set rest
      end
  end.

Definition original_group_id_of (ix : original_index) (final_values_set : value_set)
    (orig_group_sets : list value_set) : string :=
  match orig_group_sets with
  | [] => ""
  | first_ogs :: _ =>
      let fallback := default "" (original_group_set_to_id ix !! first_ogs) in
      match find_matched (original_group_set_to_id ix) final_values_set orig_group_sets with
      | Some matched => if decide (matched ≠ "") then matched else fallback
      | None => fallback
      end
  end.

Definition group_status_of (final_values_set : value_set)
    (orig_group_sets : list value_set) : string :=
  if decide (final_values_set ∈ orig_group_sets) then "Non-modified" else "Modified".

(** One report row: the body of [for v in final_values]. *)
Definition make_row (ix : original_index) (value_to_original_name : gmap string string)
    (cg : cleaned_group) (gid : string) (sr : nat) (v : string) : row :=
  let final_values_set := cg_values_set cg in
  let final_group_name := Str.join (cg_names cg) in
  let orig_name := default "" (value_to_original_name !! v) in
  let orig_group_sets := default [] (value_to_original_group_sets ix !! v) in
  let orig_deps_set : gset string := default ∅ (value_to_original_deps ix !! v) in
  let final_deps_set : gset string := list_to_set (cg_dependents cg) in
  {| sr_no := sr;
     value_id := v;
     original_value_name := orig_name;
     final_group_name := final_group_name;
     original_group_id := original_group_id_of ix final_values_set orig_group_sets;
     final_group_id := gid;
     group_status := group_status_of final_values_set orig_group_sets;
     dependency_status :=
       if decide (orig_deps_set = final_deps_set) then "Non-modified" else "Modified";
     original_dependents := String.concat ";" (sorted_strings (elements orig_deps_set));
     final_dependents := String.concat ";" (sorted_strings (elements final_deps_set)) |}.

(** The loop state is [(sr, export_rows)]. *)
Definition emit_value (ix : original_index) (value_to_original_name : gmap string string)
    (cg : cleaned_group) (gid : string) (st : nat * list row) (v : string)
    : nat * list row :=
  (S st.1, st.2 ++ [make_row ix value_to_original_name cg gid st.1 v]).

Definition emit_group (ix : original_index) (value_to_original_name : gmap string string)
    (st : nat * list row) (p : cleaned_group * string) : nat * list row :=
  foldl (emit_value ix value_to_original_name p.1 p.2) st (cg_values p.1).

(** The rows of the mapping sheet, from the two re-parsed documents.
    [value_to_final_info] is built by the program and never read: it is
    left out. *)
Definition export_rows (root_original root_clean : document) : list row :=
  let ix := index_original root_original in
  let cleaned_groups := cleaned_groups_of root_clean in
  let final_group_assignments :=
    final_group_assignments (hybrid_numbering ix cleaned_groups) in
  let value_to_original_name := original_names root_original in
  (foldl (emit_group ix value_to_original_name) (1, [])
         (zip cleaned_groups final_group_assignments)).2.

(** Upload to report: the export pass runs only when [cleaned_xml] exists. *)
Definition mapping_report (root : document) : result (list row) :=
  root_clean ← generate_clean_xml_from_root root;
  Ok (export_rows root root_clean).

(** ** Specification-level definitions *)

(** A list as the program joins it: tokens and, possibly, empty strings. *)
Definition joinable (l : list string) : Prop :=
  Forall (λ t, t = "" ∨ Str.token t) l.

(** The list that [push_unique] builds from the elements of [l], taken in
    order: its distinct elements, in the order of first occurrence. *)
Definition uniq `{EqDecision A} (l : list A) : list A :=
  foldl (λ acc x, push_unique x acc) [] l.

(** The items one <option> contributes. *)
Definition flat_items (opt : option_el) : list flat_item :=
  imap (λ idx name,
          FlatItem name (pair_value (values_of opt) idx) (list_to_set (dep_ids_of opt)))
       (names_of opt).

(** The values the flattener pairs with the names of one <option>. *)
Definition paired_values (opt : option_el) : list string :=
  imap (λ idx _, pair_value (values_of opt) idx) (names_of opt).

(** Union of the dependent sets of the items that carry [v]. *)
Definition deps_for (v : string) (fl : list flat_item) : dep_set :=
  ⋃ (fi_deps <$> filter (λ it, fi_value it = v) fl).

(** The grouping key of an item. *)
Definition key_of (value_to_deps : gmap string dep_set) (it : flat_item) : dep_set :=
  default ∅ (value_to_deps !! fi_value it).

(** The group of key [k]: names and values of the items of that key, each
    once, in the order of first occurrence. *)
Definition group_for (value_to_deps : gmap string dep_set) (k : dep_set)
    (fl : list flat_item) : group :=
  let its := filter (λ it, key_of value_to_deps it = k) fl in
  Group (uniq (fi_name <$> its)) (uniq (fi_value <$> its)) k.

(** One group per key, in the order in which the keys first occur. *)
Definition merge_spec (value_to_deps : gmap string dep_set) (fl : list flat_item)
    : list (dep_set * group) :=
  (λ k, (k, group_for value_to_deps k fl)) <$> uniq (key_of value_to_deps <$> fl).

(** The unified dependent set of the value of an item. *)
Definition unified_key (fl : list flat_item) (it : flat_item) : dep_set :=
  key_of (unify fl) it.

(** The groups of a document, in closed form. *)
Definition groups_of (fl : list flat_item) : list group :=
  (λ k, group_for (unify fl) k fl) <$> uniq (unified_key fl <$> fl).

(** The dependent identifiers of an <option>, as a set. *)
Definition option_deps (opt : option_el) : dep_set := list_to_set (dep_ids_of opt).

(** Union of the dependent sets of the <option> records whose value tokens
    contain [v]. *)
Definition containing_deps (root : document) (v : string) : dep_set :=
  ⋃ (option_deps <$> filter (λ opt, v ∈ values_of opt) (root_options root)).

(** Union of the dependent sets of the <option> records in which the
    flattener pairs [v] with a name. *)
Definition pairing_deps (root : document) (v : string) : dep_set :=
  ⋃ (option_deps <$> filter (λ opt, v ∈ paired_values opt) (root_options root)).

(** The distinct value tokens of a document. *)
Definition doc_values (d : document) : gset string :=
  ⋃ ((λ opt, list_to_set (_split_field (default "" (opt_value opt)))) <$> root_options d).

(** Every <dependent> of an <option> that has a name token carries an [id]. *)
Definition ids_present (root : document) : Prop :=
  Forall (λ opt, names_of opt ≠ [] →
                 Forall (λ d, is_Some (dep_id d)) (opt_dependents opt))
         (root_options root).

#[global] Instance ids_present_dec root : Decision (ids_present root).
Proof. unfold ids_present. apply _. Defined.

(** No <option> has more value tokens than name tokens. *)
Definition names_cover_values (root : document) : Prop :=
  Forall (λ opt, (length (values_of opt) ≤ length (names_of opt))%nat)
         (root_options root).

#[global] Instance names_cover_values_dec root : Decision (names_cover_values root).
Proof. unfold names_cover_values. apply _. Defined.

(** The <option> that a group becomes in the output. *)
Definition output_option (dep_id_to_name : gmap (option string) string) (g : group)
    : option_el :=
  OptionEl (Some (Str.join (g_names g))) (Some (Str.join (g_values g)))
           ((λ d, Dependent d (Some (default "" (dep_id_to_name !! d))))
              <$> sorted_deps (g_deps g)).

(** The canonical document, in closed form. *)
Definition canonical (root : document) : document :=
  Document (root_attrib root)
           (output_option (dep_id_to_name (flatten root))
              <$> groups_of (flat (flatten root))).

(** Dependent union correctness, as the specification words it: the group
    that contains a value token has, as its dependent set, the union over the
    original records containing that token. *)
Definition spec_dependent_union (root : document) : Prop :=
  ∀ v merged g,
    (∃ opt, opt ∈ root_options root ∧ v ∈ values_of opt) →
    merged_groups root = Ok merged →
    g ∈ merged → v ∈ g_values g →
    g_deps g = containing_deps root v.

(** Value-set conservation, as the specification words it. *)
Definition spec_value_conservation (root : document) : Prop :=
  ∃ out, generate_clean_xml_from_root root = Ok out
         ∧ doc_values out = doc_values root.

(** An <option> with name tokens and no value token. *)
Definition empty_valued (opt : option_el) : Prop :=
  names_of opt ≠ [] ∧ values_of opt = [].

#[global] Instance empty_valued_dec opt : Decision (empty_valued opt).
Proof. unfold empty_valued. apply _. Defined.

(** The name tokens and the value tokens of an <option>, as the export pass
    reads them. *)
Definition name_set (opt : option_el) : gset string :=
  list_to_set (_split_field (default "" (opt_name opt))).

Definition value_set_of (opt : option_el) : gset string :=
  list_to_set (_split_field (default "" (opt_value opt))).

(** Every name list and every value list is without duplicates. *)
Definition unique_lists (root : document) : Prop :=
  Forall (λ opt, NoDup (names_of opt) ∧ NoDup (values_of opt)) (root_options root).

(** Distinct <option> records have distinct dependent sets. *)
Definition distinct_deps (root : document) : Prop :=
  NoDup (option_deps <$> root_options root).

(** The dependent sets are merge-minimal: the unified dependent set of every
    value paired in an <option> is the dependent set of that <option>. *)
Definition merge_minimal (root : document) : Prop :=
  Forall (λ opt, Forall (λ v, pairing_deps root v = option_deps opt) (paired_values opt))
         (root_options root).

Definition already_canonical (root : document) : Prop :=
  unique_lists root ∧ distinct_deps root ∧ merge_minimal root.

#[global] Instance already_canonical_dec root : Decision (already_canonical root).
Proof. unfold already_canonical, unique_lists, distinct_deps, merge_minimal. apply _. Defined.

(** Every <option> has a name token. *)
Definition all_named (root : document) : Prop :=
  Forall (λ opt, names_of opt ≠ []) (root_options root).

#[global] Instance all_named_dec root : Decision (all_named root).
Proof. unfold all_named. apply _. Defined.

(** Same number of groups and, group by group, the same name set and the
    same value set. *)
Definition same_groups (d1 d2 : document) : Prop :=
  length (root_options d2) = length (root_options d1)
  ∧ Forall2 (λ o1 o2, name_set o2 = name_set o1 ∧ value_set_of o2 = value_set_of o1)
            (root_options d1) (root_options d2).

(** Idempotence of canonicalisation, as the specification words it. *)
Definition spec_idempotence (root : document) : Prop :=
  already_canonical root →
  ∃ out, generate_clean_xml_from_root root = Ok out ∧ same_groups root out.

(** The value tokens of an <option> as the export pass reads them, and its
    raw value set. *)
Definition raw_values (opt : option_el) : list string :=
  _split_field (default "" (opt_value opt)).

Definition raw_set (opt : option_el) : value_set := list_to_set (raw_values opt).

(** [s] is the raw value set of an original record that [v] belonged to. *)
Definition originally_in (root_original : document) (v : string) (s : value_set) : Prop :=
  ∃ opt, opt ∈ root_options root_original ∧ v ∈ raw_values opt ∧ raw_set opt = s.

(** The raw value sets registered for [v], one per occurrence of [v] in the
    value tokens of a record, in document order. *)
Definition original_sets_of (root_original : document) (v : string) : list value_set :=
  root_options root_original ≫=
    (λ opt, (λ _, raw_set opt) <$> filter (λ x, x = v) (raw_values opt)).

(** The (group, identifier, value) triples in the order of the report. *)
Definition report_entries (ps : list (cleaned_group * string))
    : list (cleaned_group * string * string) :=
  ps ≫= (λ p, (λ v, (p, v)) <$> cg_values p.1).

(** The Group Status of row [r], emitted for a value of the cleaned group
    [cg], is right. *)
Definition status_correct (root_original : document) (cg : cleaned_group) (r : row)
    : Prop :=
  (group_status r = "Non-modified"
   ↔ originally_in root_original (value_id r) (cg_values_set cg))
  ∧ (¬ originally_in root_original (value_id r) (cg_values_set cg)
     → group_status r = "Modified")
  ∧ (value_to_original_group_sets (index_original root_original) !! value_id r = None
     → group_status r = "Modified").

(** Position of the first occurrence. *)
Fixpoint first_index `{EqDecision A} (x : A) (l : list A) : option nat :=
  match l with
  | [] => None
  | y :: l' => if decide (x = y) then Some 0%nat else S <$> first_index x l'
  end.

(** Hybrid numbering, as the specification words it.  [original_sets] are
    the raw value sets of the original records G1..Gn in document order,
    [fresh] the distinct value sets of canonical groups that equal no
    original value set, in the order in which they first occur. *)
Definition spec_final_id (original_sets fresh : list value_set) (s : value_set)
    : string :=
  match first_index s original_sets with
  | Some j => gid_of (S j)
  | None =>
      match first_index s fresh with
      | Some k => gid_of (length original_sets + 1 + k)
      | None => ""
      end
  end.

Definition fresh_sets (original_sets clean_sets : list value_set) : list value_set :=
  uniq (filter (λ s, s ∉ original_sets) clean_sets).

Definition spec_final_ids (original_sets clean_sets : list value_set) : list string :=
  spec_final_id original_sets (fresh_sets original_sets clean_sets) <$> clean_sets.

(** ** Example documents *)

Definition C1_doc : document :=
  Document []
    [OptionEl (Some "A,B") (Some "1,1") [Dependent (Some "d1") (Some "X")];
     OptionEl (Some "C") (Some "2") [Dependent (Some "d1") (Some "X")]].

Definition C2_doc : document :=
  Document []
    [OptionEl (Some "A") (Some "1,2") [Dependent (Some "d1") (Some "X")];
     OptionEl (Some "B") (Some "2") [Dependent (Some "d2") (Some "Y")]].

Definition C3_doc : document :=
  Document [] [OptionEl (Some "A") (Some "1,2") [Dependent (Some "d1") (Some "X")]].

Definition C5_doc : document :=
  Document [] [OptionEl (Some "A") (Some "1") [Dependent None (Some "X")]].

Definition C10_doc : document :=
  Document []
    [OptionEl (Some "A,B") None [Dependent (Some "d1") (Some "X")];
     OptionEl (Some "C") (Some "1") [Dependent (Some "d1") (Some "X")];
     OptionEl (Some "D") (Some " , ") [Dependent (Some "d2") (Some "Y")]].

Definition C4_doc : document :=
  Document [] [OptionEl (Some "A") (Some "1,2") [Dependent (Some "d1") (Some "X")]].

Definition C4_canonical_doc : document :=
  Document []
    [OptionEl (Some "A,B") (Some "1,2") [Dependent (Some "d1") (Some "X")];
     OptionEl (Some "C") (Some "3") [Dependent (Some "d2") (Some "Y")]].

Definition C7_doc : document :=
  Document []
    [OptionEl (Some "A,B") (Some "1,2") [Dependent (Some "d1") (Some "X")];
     OptionEl (Some "C") (Some "3") [Dependent (Some "d1") (Some "X")];
     OptionEl (Some "D") (Some "4") [Dependent (Some "d2") (Some "Y")]].

Definition C4_unnamed_doc : document :=
  Document []
    [OptionEl (Some "A") (Some "1") [Dependent (Some "d1") (Some "X")];
     OptionEl (Some "") (Some "") [Dependent (Some "d2") (Some "Y")]].

Definition C6_original : document :=
  Document []
    [OptionEl (Some "A,B") (Some "1,2") [];
     OptionEl (Some "C") (Some "3") [];
     OptionEl (Some "D") (Some "2,1") []].

Definition C6_clean : document :=
  Document []
    [OptionEl (Some "C") (Some "3") [];
     OptionEl (Some "A") (Some "1") [];
     OptionEl (Some "B") (Some "2") [];
     OptionEl (Some "E") (Some "1") [];
     OptionEl (Some "E") (Some "2,1") []].

Definition spec_example_doc : document :=
  Document [] [OptionEl (Some "A,B") (Some "9") []].


(** ** Definitions for the further properties *)

Module StrEnds.

Definition head_char (s : string) : option ascii :=
  match s with
  | String c _ => Some c
  | EmptyString => None
  end.

Fixpoint last_char (s : string) : option ascii :=
  match s with
  | EmptyString => None
  | String c EmptyString => Some c
  | String _ s' => last_char s'
  end.

Fixpoint all_space (s : string) : bool :=
  match s with
  | String c s' => Str.is_space c && all_space s'
  | EmptyString => true
  end.

End StrEnds.

(** A token as a user sees it: not empty, no comma, no white space at either
    end. *)
Definition clean_token (t : string) : Prop :=
  t ≠ ""
  ∧ Str.has_comma t = false
  ∧ (∀ c, StrEnds.head_char t = Some c → Str.is_space c = false)
  ∧ (∀ c, StrEnds.last_char t = Some c → Str.is_space c = false).

(** The distinct name tokens of a document. *)
Definition doc_names (d : document) : gset string :=
  ⋃ (name_set <$> root_options d).

(** The items of [fl] that fall into the group of key [k]. *)
Definition items_of_key (fl : list flat_item) (k : dep_set) : list flat_item :=
  filter (λ it, unified_key fl it = k) fl.

(** The first <dependent> of [ds] that carries the identifier [i]. *)
Definition first_dependent (ds : list dependent) (i : option string) : option dependent :=
  head (filter (λ d, dep_id d = i) ds).

(** Every <dependent> of the document, in document order. *)
Definition all_dependents (root : document) : list dependent :=
  root_options root ≫= opt_dependents.

(** A document in which no <option> has a name token, with a <dependent>
    that lacks its [id]. *)
Definition unnamed_doc : document :=
  Document [("version", "2")]
    [OptionEl None (Some "1,2") [Dependent None (Some "X")];
     OptionEl (Some " , ") (Some "3") []].

Definition renamed_dependent_doc : document :=
  Document []
    [OptionEl None (Some "0") [Dependent (Some "d1") (Some "First")];
     OptionEl (Some "A") (Some "1") [Dependent (Some "d1") (Some "Second");
                                     Dependent (Some "d2") None]].

(** The "id:name" strings of the dependents of an <option>, as a set. *)
Definition dep_string_set (opt : option_el) : gset string :=
  list_to_set (dep_string <$> opt_dependents opt).

(** Union of the dependent strings of the original records whose value
    tokens contain [v]. *)
Definition original_dep_strings (root_original : document) (v : string) : gset string :=
  ⋃ (dep_string_set <$> filter (λ opt, v ∈ raw_values opt) (root_options root_original)).

(** The raw value sets of the original records, in document order. *)
Definition original_sets (root_original : document) : list value_set :=
  raw_set <$> root_options root_original.

Definition report_doc_original : document :=
  Document []
    [OptionEl (Some "A,B") (Some "1,2") [Dependent (Some "d1") (Some "X")];
     OptionEl (Some "C") (Some "3") [Dependent (Some "d1") (Some "X")];
     OptionEl (Some "D") (Some "4") [Dependent (Some "d2") None]].

(** The name of the first flat item that carries the value [v]. *)
Definition first_name (fl : list flat_item) (v : string) : option string :=
  fi_name <$> head (filter (λ it, fi_value it = v) fl).

(** ** [ai_engine.AIEngine] *)

Module AIEngine.

(** Truth value of a secret: present and not empty. *)
Definition truthy (k : option string) : bool :=
  match k with
  | Some s => negb (String.eqb s "")
  | None => false
  end.

(** The fields of the object; a client is an object or [None]. *)
Record engine := Engine {
  grok_key : option string;
  openai_key : option string;
  active_model : option string;
  openai_client : bool;
  grok_client : bool
}.

Inductive init_result :=
  | Constructed (self : engine)
  | RaisesNameError.

(** [__init__], given [st.secrets.get("groq", {}).get("key")] and
    [st.secrets.get("openai", {}).get("key")].  The module imports [st] and
    [OpenAI] only: the name [Groq] is bound nowhere, so the call
    [Groq(api_key=...)], evaluated when [grok_key] is truthy, raises
    [NameError]. *)
Definition init (groq_secret openai_secret : option string) : init_result :=
  let grok_key := groq_secret in
  let openai_key := openai_secret in
  let openai_client := truthy openai_key in
  if truthy grok_key then RaisesNameError
  else Constructed (Engine grok_key openai_key None openai_client false).

(** What a [try] block of [generate] meets: the request raises; the request
    returns but reading [response.choices[0].message.content] raises (the
    assignment to [active_model] has run by then); or the content. *)
Inductive answer :=
  | CallRaises
  | ResponseUnreadable
  | Content (text : string).

Definition openai_label : string := "OpenAI GPT-4o-mini".
Definition grok_label : string := "xAI Grok-4-0709".
Definition both_failed : string :=
  "❌ Both OpenAI and Grok failed. Check your API keys.".
Definition no_model : string :=
  "❌ No valid AI model available. Please configure API keys.".

Definition set_active_model (self : engine) (label : string) : engine :=
  Engine (grok_key self) (openai_key self) (Some label)
         (openai_client self) (grok_client self).

(** The part of [generate] after the OpenAI attempt. *)
Definition generate_grok (self : engine) (grok : answer) : string * engine :=
  if grok_client self then
    match grok with
    | Content text => (text, set_active_model self grok_label)
    | ResponseUnreadable => (both_failed, set_active_model self grok_label)
    | CallRaises => (both_failed, self)
    end
  else (no_model, self).

(** [generate]: the returned text and the object afterwards. *)
Definition generate (self : engine) (openai grok : answer) : string * engine :=
  if openai_client self then
    match openai with
    | Content text => (text, set_active_model self openai_label)
    | ResponseUnreadable => generate_grok (set_active_model self openai_label) grok
    | CallRaises => generate_grok self grok
    end
  else generate_grok self grok.

End AIEngine.

Definition misaligned_doc : document :=
  Document []
    [OptionEl (Some "A,B,C") (Some "1,1,2") [Dependent (Some "d1") (Some "X")]].

(** * Properties *)

(** Decide a closed proposition by evaluation. *)
Ltac by_compute :=
  match goal with
  | |- ?P => apply (bool_decide_unpack P); vm_compute; exact I
  end.

(** ** Lists *)

Section list_facts.
Context {A : Type} (P : A → Prop) `{!∀ x, Decision (P x)}.

Lemma filter_none (l : list A) : Forall (λ x, ¬ P x) l → filter P l = [].
Proof.
  induction 1 as [|x l Hx _ IH]; [done|]. by rewrite filter_cons_False.
Qed.

Lemma filter_all (l : list A) : Forall P l → filter P l = l.
Proof.
  induction 1 as [|x l Hx _ IH]; [done|]. rewrite filter_cons_True by done.
  by f_equal.
Qed.
End list_facts.

(** ** Strings *)

Module StrFacts.
Import Str.

Lemma lstrip_idemp s : lstrip (lstrip s) = lstrip s.
Proof.
  induction s as [|c s IH]; simpl; [done|].
  destruct (is_space c) eqn:E; [done|]. simpl. by rewrite E.
Qed.

Lemma rstrip_cons_inv c s : rstrip (String c s) = String c s → rstrip s = s.
Proof.
  simpl. destruct (rstrip s) eqn:E.
  - destruct (is_space c); [done|]. by intros [= <-].
  - by intros [= <-].
Qed.

Lemma rstrip_idemp s : rstrip (rstrip s) = rstrip s.
Proof.
  induction s as [|c s IH]; simpl; [done|].
  destruct (rstrip s) as [|c' r] eqn:E.
  - destruct (is_space c) eqn:Ec; simpl; [done|]. by rewrite Ec.
  - change (rstrip (String c (String c' r)) = String c (String c' r)).
    simpl. simpl in IH. destruct (rstrip r) eqn:Er.
    + destruct (is_space c'); [done|]. by injection IH as <-.
    + by injection IH as <-.
Qed.

Lemma rstrip_lstrip s : rstrip s = s → rstrip (lstrip s) = lstrip s.
Proof.
  induction s as [|c s IH]; [done|]. intros H.
  simpl lstrip. destruct (is_space c); [|done].
  apply IH. by eapply rstrip_cons_inv.
Qed.

Lemma strip_idemp s : strip (strip s) = strip s.
Proof.
  unfold strip.
  rewrite (rstrip_lstrip (rstrip s)) by apply rstrip_idemp.
  apply lstrip_idemp.
Qed.

Lemma has_comma_lstrip s : has_comma s = false → has_comma (lstrip s) = false.
Proof.
  induction s as [|c s IH]; simpl; [done|].
  intros [? ?]%orb_false_elim. destruct (is_space c); [auto|].
  simpl. by apply orb_false_intro.
Qed.

Lemma has_comma_rstrip s : has_comma s = false → has_comma (rstrip s) = false.
Proof.
  induction s as [|c s IH]; simpl; [done|].
  intros [Hc Hs]%orb_false_elim. specialize (IH Hs).
  destruct (rstrip s) eqn:E.
  - destruct (is_space c); [done|]. simpl. by rewrite Hc.
  - simpl. simpl in IH. by rewrite Hc, IH.
Qed.

Lemma has_comma_strip s : has_comma s = false → has_comma (strip s) = false.
Proof. intros. by apply has_comma_lstrip, has_comma_rstrip. Qed.

Lemma split_ne_nil s : split s ≠ [].
Proof.
  induction s as [|c s IH]; simpl; [done|].
  case_decide; [done|]. by destruct (split s).
Qed.

Lemma split_no_comma s : Forall (λ t, has_comma t = false) (split s).
Proof.
  induction s as [|c s IH]; simpl.
  - by repeat constructor.
  - case_decide as Hc.
    + by constructor.
    + destruct (split s) as [|h t]; inversion IH; subst; constructor; auto.
      * simpl. by rewrite bool_decide_eq_false_2.
      * simpl. by rewrite bool_decide_eq_false_2.
Qed.

Lemma split_comma_free s : has_comma s = false → split s = [s].
Proof.
  induction s as [|c s IH]; simpl; [done|].
  intros [Hc Hs]%orb_false_elim. apply bool_decide_eq_false_1 in Hc.
  case_decide; [done|]. by rewrite IH.
Qed.

Lemma split_app_comma s r :
  has_comma s = false → split (s +:+ String comma r) = s :: split r.
Proof.
  induction s as [|c s IH]; simpl.
  - done.
  - intros [Hc Hs]%orb_false_elim. apply bool_decide_eq_false_1 in Hc.
    case_decide; [done|]. by rewrite IH.
Qed.

(** [",".join(l).split(",")] gives [l] back when no element holds a comma. *)
Lemma split_join l :
  l ≠ [] → Forall (λ t, has_comma t = false) l → split (join l) = l.
Proof.
  intros Hne Hl. induction Hl as [|x l Hx Hl IH]; [done|].
  destruct l as [|y l].
  - simpl. by apply split_comma_free.
  - change (join (x :: y :: l)) with (x +:+ String comma (join (y :: l))).
    rewrite split_app_comma by done. f_equal. by apply IH.
Qed.

End StrFacts.

(** ** Tokenizer *)

Lemma _split_field_split text : _split_field text = _split text.
Proof. unfold _split_field, _split. by repeat case_decide. Qed.

Lemma _split_tokens text : Forall Str.token (_split text).
Proof.
  unfold _split. case_decide; [|constructor].
  apply Forall_forall. intros t [Ht (p & -> & Hp)%list_elem_of_fmap]%list_elem_of_filter.
  split; [done|]. split; [apply StrFacts.strip_idemp|].
  apply StrFacts.has_comma_strip.
  by eapply (proj1 (Forall_forall _ _) (StrFacts.split_no_comma text)).
Qed.

(** Joining and tokenizing again drops the empty strings and nothing else. *)
Lemma _split_join l : joinable l → _split (Str.join l) = filter (λ t, t ≠ "") l.
Proof.
  intros Hl. destruct (decide (l = [])) as [->|Hne]; [done|].
  unfold _split. case_decide as Hj.
  - rewrite StrFacts.split_join; [|done|].
    + f_equal. apply list_eq. intros i. rewrite list_lookup_fmap.
      destruct (l !! i) as [t|] eqn:Hi; [|done]. simpl. f_equal.
      apply (proj1 (Forall_lookup _ _) Hl) in Hi as [->|(_ & ? & _)]; done.
    + eapply Forall_impl; [exact Hl|]. by intros t [->|(_ & _ & ?)].
  - symmetry. apply filter_none, Forall_forall. intros t Ht ?.
    assert (Forall (λ t, t = "") l) as Hall.
    { clear -Hj Hne. induction l as [|x l IH]; [done|].
      destruct l as [|y l].
      - simpl in Hj. subst. by repeat constructor.
      - change (Str.join (x :: y :: l)) with (x +:+ String Str.comma (Str.join (y :: l))) in Hj.
        by destruct x. }
    by apply (proj1 (Forall_forall _ _) Hall) in Ht.
Qed.

Lemma Forall_token_joinable l : Forall Str.token l → joinable l.
Proof. intros Hl. eapply Forall_impl; [exact Hl|]. auto. Qed.

Lemma _split_join_tokens l : Forall Str.token l → _split (Str.join l) = l.
Proof.
  intros Hl. rewrite _split_join by by apply Forall_token_joinable.
  apply filter_all. eapply Forall_impl; [exact Hl|]. by intros t [? _].
Qed.

(** ** Python containers *)

Section containers.
Context `{EqDecision A}.
Implicit Types (x y : A) (l : list A).

Lemma elem_of_push_unique x y l : y ∈ push_unique x l ↔ y = x ∨ y ∈ l.
Proof.
  unfold push_unique. case_decide as Hx.
  - split; [by right|]. by intros [->|?].
  - rewrite elem_of_app, list_elem_of_singleton. tauto.
Qed.

Lemma NoDup_push_unique x l : NoDup l → NoDup (push_unique x l).
Proof.
  intros Hl. unfold push_unique. case_decide; [done|].
  apply NoDup_app. split_and!; [done| |apply NoDup_singleton].
  intros y Hy ->%list_elem_of_singleton. done.
Qed.

Lemma uniq_snoc l x : uniq (l ++ [x]) = push_unique x (uniq l).
Proof. unfold uniq. by rewrite foldl_snoc. Qed.

Lemma elem_of_uniq l y : y ∈ uniq l ↔ y ∈ l.
Proof.
  induction l as [|x l IH] using rev_ind.
  - done.
  - rewrite uniq_snoc, elem_of_push_unique, elem_of_app, list_elem_of_singleton.
    tauto.
Qed.

Lemma NoDup_uniq l : NoDup (uniq l).
Proof.
  induction l as [|x l IH] using rev_ind.
  - constructor.
  - rewrite uniq_snoc. by apply NoDup_push_unique.
Qed.

Lemma uniq_snoc_old l x : x ∈ l → uniq (l ++ [x]) = uniq l.
Proof.
  intros Hx. rewrite uniq_snoc. unfold push_unique.
  by rewrite decide_True by by apply elem_of_uniq.
Qed.

Lemma uniq_snoc_new l x : x ∉ l → uniq (l ++ [x]) = uniq l ++ [x].
Proof.
  intros Hx. rewrite uniq_snoc. unfold push_unique.
  rewrite decide_False; [done|]. by rewrite elem_of_uniq.
Qed.

(** A list without duplicates is what [push_unique] rebuilds from it. *)
Lemma uniq_NoDup l : NoDup l → uniq l = l.
Proof.
  induction l as [|x l IH] using rev_ind; [done|].
  intros (Hl & Hx & _)%NoDup_app.
  rewrite uniq_snoc_new, IH; [done|done|].
  intros ?. eapply Hx; [done|]. by apply list_elem_of_singleton.
Qed.
End containers.

Section odict.
Context `{EqDecision K} {V : Type}.
Implicit Types (k : K) (v : V) (ks : list K) (f : K → V).

Lemma od_get_tabulate k ks f :
  od_get k ((λ k', (k', f k')) <$> ks) = if decide (k ∈ ks) then Some (f k) else None.
Proof.
  induction ks as [|k' ks IH].
  - destruct (decide (k ∈ [])) as [[]%elem_of_nil|]; done.
  - rewrite fmap_cons. simpl. rewrite IH.
    destruct (decide (k = k')) as [->|Hk].
    + by rewrite (decide_True (P:=k' ∈ k' :: ks)) by left.
    + destruct (decide (k ∈ ks)).
      * by rewrite (decide_True (P:=k ∈ k' :: ks)) by by right.
      * rewrite (decide_False (P:=k ∈ k' :: ks)); [done|].
        by intros [?|?]%elem_of_cons.
Qed.

Lemma od_set_tabulate_new k v ks f :
  k ∉ ks →
  od_set k v ((λ k', (k', f k')) <$> ks) = ((λ k', (k', f k')) <$> ks) ++ [(k, v)].
Proof.
  induction ks as [|k' ks IH]; csimpl; [done|].
  intros [??]%not_elem_of_cons. rewrite decide_False by done.
  by rewrite IH.
Qed.

Lemma od_set_tabulate_old k v ks f :
  NoDup ks → k ∈ ks →
  od_set k v ((λ k', (k', f k')) <$> ks)
  = (λ k', (k', if decide (k' = k) then v else f k')) <$> ks.
Proof.
  induction 1 as [|k' ks Hk' Hks IH]; csimpl.
  - by intros ?%elem_of_nil.
  - intros Hk. case_decide as Hkk.
    + subst k'. rewrite decide_True by done. f_equal.
      apply list_fmap_ext. intros _ k' Hin%list_elem_of_lookup_2.
      rewrite decide_False; [done|]. by intros ->.
    + rewrite decide_False by done. f_equal. apply IH.
      apply elem_of_cons in Hk as [?|?]; done.
Qed.
End odict.

(** ** Step 1: the flat items of a document *)

Lemma flatten_name_flat values dep_ids st ps :
  flat (foldl (flatten_name values dep_ids) st ps)
  = flat st ++ ((λ p, FlatItem p.2 (pair_value values p.1) (list_to_set dep_ids)) <$> ps).
Proof.
  revert st. induction ps as [|[idx name] ps IH]; intros st; simpl.
  - by rewrite app_nil_r.
  - rewrite IH. simpl. by rewrite <-app_assoc.
Qed.

Lemma flatten_option_flat st opt :
  flat (flatten_option st opt) = flat st ++ flat_items opt.
Proof.
  unfold flatten_option. rewrite flatten_name_flat. simpl. f_equal.
  unfold flat_items. by rewrite fmap_imap.
Qed.

Lemma flatten_options_flat st opts :
  flat (foldl flatten_option st opts) = flat st ++ (opts ≫= flat_items).
Proof.
  revert st. induction opts as [|opt opts IH]; intros st; simpl.
  - by rewrite app_nil_r.
  - rewrite IH, flatten_option_flat. by rewrite <-app_assoc.
Qed.

Lemma flatten_flat root : flat (flatten root) = root_options root ≫= flat_items.
Proof. unfold flatten. by rewrite flatten_options_flat. Qed.

Lemma flat_items_values opt : fi_value <$> flat_items opt = paired_values opt.
Proof. unfold flat_items, paired_values. by rewrite fmap_imap. Qed.

Lemma flat_items_names opt : fi_name <$> flat_items opt = names_of opt.
Proof.
  unfold flat_items. rewrite fmap_imap. simpl.
  apply list_eq. intros i. rewrite list_lookup_imap.
  by destruct (names_of opt !! i).
Qed.

Lemma flat_items_deps opt it :
  it ∈ flat_items opt → fi_deps it = option_deps opt.
Proof.
  unfold flat_items. intros (i & x & -> & _)%elem_of_lookup_imap. done.
Qed.

Lemma elem_of_flat_items opt it :
  it ∈ flat_items opt ↔
  ∃ idx, names_of opt !! idx = Some (fi_name it)
         ∧ fi_value it = pair_value (values_of opt) idx
         ∧ fi_deps it = list_to_set (dep_ids_of opt).
Proof.
  unfold flat_items. rewrite elem_of_lookup_imap. split.
  - intros (i & x & -> & Hi). by exists i.
  - intros (i & Hi & Hv & Hd). exists i, (fi_name it). split; [|done].
    destruct it; simpl in *. by subst.
Qed.

(** ** Step 2: [value_to_deps] is the union of the dependents per value *)

Lemma deps_for_snoc v fl it :
  deps_for v (fl ++ [it])
  = deps_for v fl ∪ (if decide (fi_value it = v) then fi_deps it else ∅).
Proof.
  unfold deps_for. rewrite filter_app, fmap_app, union_list_app_L. f_equal.
  destruct (decide (fi_value it = v)) as [Hv|Hv].
  - rewrite filter_cons_True by done. simpl. apply union_empty_r_L.
  - by rewrite filter_cons_False by done.
Qed.

Lemma unify_lookup fl v :
  unify fl !! v = if decide (v ∈ fi_value <$> fl) then Some (deps_for v fl) else None.
Proof.
  induction fl as [|it fl IH] using rev_ind.
  - rewrite decide_False by apply not_elem_of_nil. done.
  - unfold unify in *. rewrite foldl_snoc. unfold unify_item at 1.
    rewrite fmap_app, deps_for_snoc. simpl.
    destruct (decide (fi_value it = v)) as [<-|Hne].
    + rewrite lookup_insert_eq.
      rewrite (decide_True (P:=_ ∈ _ ++ _)) by (apply elem_of_app; right; by left).
      f_equal. rewrite IH. case_decide as Hin; [done|].
      simpl. f_equal. unfold deps_for. rewrite filter_none; [done|].
      apply Forall_forall. intros it' Hit' Heq. apply Hin.
      rewrite <-Heq. by apply list_elem_of_fmap_2.
    + rewrite lookup_insert_ne by done. rewrite IH.
      rewrite union_empty_r_L.
      destruct (decide (v ∈ fi_value <$> fl)) as [Hin|Hin].
      * by rewrite decide_True by (apply elem_of_app; by left).
      * rewrite decide_False; [done|].
        intros [?|Hx%list_elem_of_singleton]%elem_of_app; [done|]. by apply Hne.
Qed.


Lemma unify_lookup_item fl it :
  it ∈ fl → unify fl !! fi_value it = Some (deps_for (fi_value it) fl).
Proof.
  intros Hit. rewrite unify_lookup, decide_True; [done|].
  by apply list_elem_of_fmap_2.
Qed.

Lemma elem_of_deps_for d v fl :
  d ∈ deps_for v fl ↔ ∃ it, it ∈ fl ∧ fi_value it = v ∧ d ∈ fi_deps it.
Proof.
  unfold deps_for. rewrite elem_of_union_list. split.
  - intros (X & (it & -> & [? ?]%list_elem_of_filter)%list_elem_of_fmap & Hd). eauto.
  - intros (it & ? & ? & ?). exists (fi_deps it). split; [|done].
    apply list_elem_of_fmap_2. by apply list_elem_of_filter.
Qed.

(** ** Step 3: the merged groups in closed form *)

Section merge_spec.
Variable value_to_deps : gmap string dep_set.
Local Abbreviation key := (key_of value_to_deps).
Local Abbreviation grp := (group_for value_to_deps).
Local Abbreviation spec := (merge_spec value_to_deps).

Lemma group_for_snoc_other k fl it :
  key it ≠ k → grp k (fl ++ [it]) = grp k fl.
Proof.
  intros Hk. unfold group_for. rewrite filter_app.
  rewrite (filter_cons_False _ it), filter_nil by done. by rewrite app_nil_r.
Qed.

Lemma group_for_snoc_same fl it :
  grp (key it) (fl ++ [it])
  = Group (push_unique (fi_name it) (g_names (grp (key it) fl)))
          (push_unique (fi_value it) (g_values (grp (key it) fl)))
          (key it).
Proof.
  unfold group_for. rewrite filter_app.
  rewrite (filter_cons_True _ it), filter_nil by done.
  by rewrite !fmap_app, !list_fmap_singleton, !uniq_snoc.
Qed.

Lemma group_for_absent k fl :
  k ∉ key <$> fl → grp k fl = Group [] [] k.
Proof.
  intros Hk. unfold group_for. rewrite filter_none; [done|].
  apply Forall_forall. intros it Hit Heq. apply Hk. rewrite <-Heq.
  by apply list_elem_of_fmap_2.
Qed.

Lemma merge_item_spec fl it :
  is_Some (value_to_deps !! fi_value it) →
  merge_item value_to_deps (spec fl) it = Ok (spec (fl ++ [it])).
Proof.
  intros [k Hk]. unfold merge_item. rewrite Hk. f_equal.
  assert (key it = k) as Hkey by (unfold key_of; by rewrite Hk).
  assert (od_get k (spec fl)
          = if decide (k ∈ uniq (key <$> fl)) then Some (grp k fl) else None)
    as -> by apply (od_get_tabulate k _ (λ k', grp k' fl)).
  unfold merge_spec. rewrite fmap_app, list_fmap_singleton, Hkey.
  destruct (decide (k ∈ uniq (key <$> fl))) as [Hin|Hin].
  - rewrite od_set_tabulate_old by (done || apply NoDup_uniq).
    rewrite uniq_snoc_old by by apply elem_of_uniq.
    apply list_fmap_ext. intros _ k' _. f_equal.
    case_decide as Hkk.
    + subst k'. rewrite <-Hkey. rewrite group_for_snoc_same. by rewrite Hkey.
    + rewrite group_for_snoc_other; [done|]. by rewrite Hkey.
  - rewrite elem_of_uniq in Hin.
    rewrite od_set_tabulate_new by by rewrite elem_of_uniq.
    rewrite uniq_snoc_new by done. rewrite fmap_app, list_fmap_singleton. f_equal.
    + apply list_fmap_ext. intros _ k' Hk'%list_elem_of_lookup_2. f_equal.
      rewrite group_for_snoc_other; [done|].
      rewrite Hkey. intros <-. rewrite elem_of_uniq in Hk'. by apply Hin.
    + do 2 f_equal. rewrite <-Hkey.
      rewrite group_for_snoc_same.
      rewrite group_for_absent by by rewrite Hkey. done.
Qed.

Lemma merge_loop_spec done rest :
  Forall (λ it, is_Some (value_to_deps !! fi_value it)) rest →
  merge_loop value_to_deps (spec done) rest = Ok (spec (done ++ rest)).
Proof.
  intros Hrest. revert done.
  induction Hrest as [|it rest Hit _ IH]; intros done; simpl.
  - by rewrite app_nil_r.
  - rewrite merge_item_spec by done. simpl.
    rewrite IH. by rewrite <-app_assoc.
Qed.

Lemma merge_Ok fl :
  Forall (λ it, is_Some (value_to_deps !! fi_value it)) fl →
  merge value_to_deps fl = Ok ((λ k, grp k fl) <$> uniq (key <$> fl)).
Proof.
  intros Hfl. unfold merge.
  change (@nil (dep_set * group)) with (spec []).
  rewrite merge_loop_spec by done. simpl. f_equal.
  unfold merge_spec. rewrite <-list_fmap_compose. done.
Qed.
End merge_spec.

Lemma unified_key_item fl it :
  it ∈ fl → unified_key fl it = deps_for (fi_value it) fl.
Proof.
  intros Hit. unfold unified_key, key_of. by rewrite unify_lookup_item.
Qed.

(** Steps 1 to 3 never raise. *)
Lemma merged_groups_Ok root :
  merged_groups root = Ok (groups_of (flat (flatten root))).
Proof.
  unfold merged_groups. rewrite merge_Ok; [done|].
  apply Forall_forall. intros it Hit. rewrite unify_lookup_item by done. eauto.
Qed.

(** Membership in the groups. *)
Lemma elem_of_groups_of fl g :
  g ∈ groups_of fl ↔
  ∃ it, it ∈ fl ∧ g = group_for (unify fl) (unified_key fl it) fl.
Proof.
  unfold groups_of. rewrite list_elem_of_fmap. split.
  - intros (k & -> & (it & -> & Hit)%elem_of_uniq%list_elem_of_fmap). eauto.
  - intros (it & Hit & ->). exists (unified_key fl it). split; [done|].
    apply elem_of_uniq. by apply list_elem_of_fmap_2.
Qed.

Lemma groups_of_deps fl g k :
  g = group_for (unify fl) k fl → g_deps g = k.
Proof. by intros ->. Qed.

Lemma NoDup_groups_deps fl : NoDup (g_deps <$> groups_of fl).
Proof.
  unfold groups_of. rewrite <-list_fmap_compose.
  assert (g_deps ∘ (λ k, group_for (unify fl) k fl) <$> uniq (unified_key fl <$> fl)
          = uniq (unified_key fl <$> fl)) as ->.
  { rewrite <-(list_fmap_id (uniq _)) at 2. by apply list_fmap_ext. }
  apply NoDup_uniq.
Qed.

Lemma elem_of_group_values fl k v :
  v ∈ g_values (group_for (unify fl) k fl) ↔
  ∃ it, it ∈ fl ∧ fi_value it = v ∧ deps_for v fl = k.
Proof.
  simpl. rewrite elem_of_uniq, list_elem_of_fmap. split.
  - intros (it & -> & [Hk Hit]%list_elem_of_filter). exists it.
    split_and!; [done..|]. by rewrite <-unified_key_item.
  - intros (it & Hit & <- & <-). exists it. split; [done|].
    apply list_elem_of_filter. split; [|done]. by apply unified_key_item.
Qed.

Lemma elem_of_group_names fl k n :
  n ∈ g_names (group_for (unify fl) k fl) ↔
  ∃ it, it ∈ fl ∧ fi_name it = n ∧ deps_for (fi_value it) fl = k.
Proof.
  simpl. rewrite elem_of_uniq, list_elem_of_fmap. split.
  - intros (it & -> & [Hk Hit]%list_elem_of_filter). exists it.
    split_and!; [done..|]. by rewrite <-unified_key_item.
  - intros (it & Hit & <- & <-). exists it. split; [done|].
    apply list_elem_of_filter. split; [|done]. by apply unified_key_item.
Qed.

(** Every value an item carries sits in exactly one group: the one whose key
    is the unified dependent set of the value. *)
Lemma group_of_value fl v :
  v ∈ fi_value <$> fl →
  ∃ i, groups_of fl !! i = Some (group_for (unify fl) (deps_for v fl) fl)
       ∧ v ∈ g_values (group_for (unify fl) (deps_for v fl) fl)
       ∧ ∀ j g, groups_of fl !! j = Some g → v ∈ g_values g → j = i.
Proof.
  intros (it & -> & Hit)%list_elem_of_fmap.
  assert (deps_for (fi_value it) fl ∈ uniq (unified_key fl <$> fl)) as Hin.
  { apply elem_of_uniq. rewrite <-unified_key_item by done.
    by apply list_elem_of_fmap_2. }
  apply list_elem_of_lookup in Hin as [i Hi]. exists i. split_and!.
  - unfold groups_of. by rewrite list_lookup_fmap, Hi.
  - apply elem_of_group_values. eauto.
  - intros j g Hj Hv. unfold groups_of in Hj.
    rewrite list_lookup_fmap in Hj.
    destruct (uniq (unified_key fl <$> fl) !! j) as [k|] eqn:Hk; [|done].
    injection Hj as <-.
    apply elem_of_group_values in Hv as (it' & _ & _ & <-).
    eapply NoDup_lookup; [apply (NoDup_uniq (unified_key fl <$> fl))|done..].
Qed.

Lemma groups_of_lookup fl i g :
  groups_of fl !! i = Some g →
  ∃ k, uniq (unified_key fl <$> fl) !! i = Some k ∧ g = group_for (unify fl) k fl.
Proof.
  unfold groups_of. rewrite list_lookup_fmap.
  destruct (uniq (unified_key fl <$> fl) !! i) as [k|]; [|done].
  intros [= <-]. eauto.
Qed.

(** ** Paired values *)

Lemma ids_present_elim root opt d :
  ids_present root → opt ∈ root_options root → names_of opt ≠ [] →
  d ∈ opt_dependents opt → is_Some (dep_id d).
Proof.
  intros Hids Hopt Hn Hd.
  pose proof (proj1 (Forall_forall _ _) Hids opt Hopt Hn) as Hall.
  by apply (proj1 (Forall_forall _ _) Hall).
Qed.

Lemma names_cover_values_elim root opt :
  names_cover_values root → opt ∈ root_options root →
  (length (values_of opt) ≤ length (names_of opt))%nat.
Proof. intros Hc Hopt. by apply (proj1 (Forall_forall _ _) Hc). Qed.

Lemma elem_of_paired_values opt v :
  v ∈ paired_values opt ↔
  ∃ idx, (idx < length (names_of opt))%nat ∧ pair_value (values_of opt) idx = v.
Proof.
  unfold paired_values. rewrite elem_of_lookup_imap. split.
  - intros (i & n & -> & Hi). exists i. split; [|done]. by eapply lookup_lt_Some.
  - intros (i & [n Hn]%lookup_lt_is_Some & <-). eauto.
Qed.

Lemma pair_value_cases values idx :
  values !! idx = Some (pair_value values idx)
  ∨ ((length values ≤ idx)%nat ∧ last values = Some (pair_value values idx))
  ∨ (values = [] ∧ pair_value values idx = "").
Proof.
  unfold pair_value. destruct (values !! idx) eqn:Hi; [by left|right].
  apply lookup_ge_None in Hi.
  destruct (last values) eqn:Hl; [by left|right].
  by apply last_None in Hl.
Qed.

(** Nothing is paired that is not a value token, but the empty string. *)
Lemma paired_values_sub opt v :
  v ∈ paired_values opt → v = "" ∨ v ∈ values_of opt.
Proof.
  intros (idx & _ & <-)%elem_of_paired_values.
  destruct (pair_value_cases (values_of opt) idx) as [H|[[_ H]|[_ H]]].
  - right. by eapply list_elem_of_lookup_2.
  - right. rewrite last_lookup in H. by eapply list_elem_of_lookup_2.
  - by left.
Qed.

Lemma values_paired opt v :
  (length (values_of opt) ≤ length (names_of opt))%nat →
  v ∈ values_of opt → v ∈ paired_values opt.
Proof.
  intros Hlen [idx Hidx]%list_elem_of_lookup. apply elem_of_paired_values.
  exists idx. split.
  - apply lookup_lt_Some in Hidx. lia.
  - unfold pair_value. by rewrite Hidx.
Qed.

Lemma values_of_tokens opt : Forall Str.token (values_of opt).
Proof. apply _split_tokens. Qed.

Lemma names_of_tokens opt : Forall Str.token (names_of opt).
Proof. apply _split_tokens. Qed.

Lemma values_of_nonempty opt v : v ∈ values_of opt → v ≠ "".
Proof.
  intros Hv. by apply (proj1 (Forall_forall _ _) (values_of_tokens opt)) in Hv as [? _].
Qed.

Lemma paired_values_joinable opt : joinable (paired_values opt).
Proof.
  apply Forall_forall. intros v [->|Hv]%paired_values_sub; [by left|right].
  by apply (proj1 (Forall_forall _ _) (values_of_tokens opt)).
Qed.

(** ** The values and the dependents of the flat items of a document *)

Lemma elem_of_flat root it :
  it ∈ flat (flatten root) ↔ ∃ opt, opt ∈ root_options root ∧ it ∈ flat_items opt.
Proof.
  rewrite flatten_flat, list_elem_of_bind. split; intros (opt & ? & ?); eauto.
Qed.

Lemma elem_of_flat_values root v :
  v ∈ fi_value <$> flat (flatten root) ↔
  ∃ opt, opt ∈ root_options root ∧ v ∈ paired_values opt.
Proof.
  rewrite list_elem_of_fmap. split.
  - intros (it & -> & (opt & Hopt & Hit)%elem_of_flat). exists opt. split; [done|].
    rewrite <-flat_items_values. by apply list_elem_of_fmap_2.
  - intros (opt & Hopt & Hv). rewrite <-flat_items_values in Hv.
    apply list_elem_of_fmap in Hv as (it & -> & Hit). exists it. split; [done|].
    apply elem_of_flat. eauto.
Qed.

Lemma elem_of_pairing_deps root v d :
  d ∈ pairing_deps root v ↔
  ∃ opt, opt ∈ root_options root ∧ v ∈ paired_values opt ∧ d ∈ option_deps opt.
Proof.
  unfold pairing_deps. rewrite elem_of_union_list. split.
  - intros (X & (opt & -> & [? ?]%list_elem_of_filter)%list_elem_of_fmap & Hd). eauto.
  - intros (opt & ? & ? & ?). exists (option_deps opt). split; [|done].
    apply list_elem_of_fmap_2. by apply list_elem_of_filter.
Qed.

Lemma elem_of_containing_deps root v d :
  d ∈ containing_deps root v ↔
  ∃ opt, opt ∈ root_options root ∧ v ∈ values_of opt ∧ d ∈ option_deps opt.
Proof.
  unfold containing_deps. rewrite elem_of_union_list. split.
  - intros (X & (opt & -> & [? ?]%list_elem_of_filter)%list_elem_of_fmap & Hd). eauto.
  - intros (opt & ? & ? & ?). exists (option_deps opt). split; [|done].
    apply list_elem_of_fmap_2. by apply list_elem_of_filter.
Qed.

(** The unified set of a value is the union over the records that pair it. *)
Lemma deps_for_pairing root v :
  deps_for v (flat (flatten root)) = pairing_deps root v.
Proof.
  apply set_eq. intros d. rewrite elem_of_deps_for, elem_of_pairing_deps. split.
  - intros (it & (opt & Hopt & Hit)%elem_of_flat & <- & Hd). exists opt.
    split_and!; [done| |].
    + rewrite <-flat_items_values. by apply list_elem_of_fmap_2.
    + by rewrite <-(flat_items_deps opt it).
  - intros (opt & Hopt & Hv & Hd). rewrite <-flat_items_values in Hv.
    apply list_elem_of_fmap in Hv as (it & -> & Hit). exists it. split_and!.
    + apply elem_of_flat. eauto.
    + done.
    + by rewrite (flat_items_deps opt it).
Qed.

Lemma pairing_containing root v :
  names_cover_values root → v ≠ "" → pairing_deps root v = containing_deps root v.
Proof.
  intros Hcover Hv. apply set_eq. intros d.
  rewrite elem_of_pairing_deps, elem_of_containing_deps.
  split; intros (opt & Hopt & Hin & Hd); exists opt; split_and!; try done.
  - by apply paired_values_sub in Hin as [?|?].
  - apply values_paired; [|done]. by eapply names_cover_values_elim.
Qed.

(** ** Step 4 and the serialisation *)

Lemma tostring_dependents_Ok ds :
  Forall (λ d, is_Some (nd_id d)) ds →
  tostring_dependents ds = Ok ((λ d, Dependent (nd_id d) (Some (nd_name d))) <$> ds).
Proof.
  induction 1 as [|d ds [i Hi] _ IH]; [done|].
  simpl. unfold tostring_dependent. rewrite Hi. simpl. by rewrite IH.
Qed.

Lemma tostring_dependents_Raise ds :
  Exists (λ d, nd_id d = None) ds → tostring_dependents ds = Raise TypeError.
Proof.
  induction 1 as [d ds Hd|d ds _ IH]; simpl; unfold tostring_dependent.
  - by rewrite Hd.
  - destruct (nd_id d); [|done]. simpl. by rewrite IH.
Qed.

Lemma tostring_dependents_exn ds e :
  tostring_dependents ds = Raise e → e = TypeError.
Proof.
  induction ds as [|d ds IH]; simpl; [done|]. unfold tostring_dependent.
  destruct (nd_id d); simpl; [|by intros [= <-]].
  destruct (tostring_dependents ds); simpl; [done|]. intros [= <-]. by apply IH.
Qed.

Lemma tostring_options_Ok os :
  Forall (λ o, Forall (λ d, is_Some (nd_id d)) (no_dependents o)) os →
  tostring_options os
  = Ok ((λ o, OptionEl (Some (no_name o)) (Some (no_value o))
                ((λ d, Dependent (nd_id d) (Some (nd_name d))) <$> no_dependents o))
          <$> os).
Proof.
  induction 1 as [|o os Ho _ IH]; [done|].
  simpl. unfold tostring_option. rewrite tostring_dependents_Ok by done.
  simpl. by rewrite IH.
Qed.

Lemma tostring_options_Raise os :
  Exists (λ o, Exists (λ d, nd_id d = None) (no_dependents o)) os →
  tostring_options os = Raise TypeError.
Proof.
  induction 1 as [o os Ho|o os _ IH]; simpl; unfold tostring_option.
  - by rewrite tostring_dependents_Raise.
  - destruct (tostring_dependents (no_dependents o)) as [ds|e] eqn:Hds.
    + simpl. by rewrite IH.
    + simpl. by rewrite (tostring_dependents_exn _ _ Hds).
Qed.

Lemma elem_of_sorted_deps s d : d ∈ sorted_deps s ↔ d ∈ s.
Proof. unfold sorted_deps. by rewrite merge_sort_Permutation, elem_of_elements. Qed.

Lemma group_deps_from_items fl g d :
  g ∈ groups_of fl → d ∈ g_deps g → ∃ it, it ∈ fl ∧ d ∈ fi_deps it.
Proof.
  intros (it & Hit & ->)%elem_of_groups_of. simpl.
  rewrite unified_key_item by done.
  intros (it' & ? & _ & ?)%elem_of_deps_for. eauto.
Qed.

Lemma item_deps_in_groups fl it d :
  it ∈ fl → d ∈ fi_deps it → ∃ g, g ∈ groups_of fl ∧ d ∈ g_deps g.
Proof.
  intros Hit Hd. exists (group_for (unify fl) (unified_key fl it) fl). split.
  - apply elem_of_groups_of. eauto.
  - simpl. rewrite unified_key_item by done. apply elem_of_deps_for. eauto.
Qed.

Lemma flat_items_nonempty opt it : it ∈ flat_items opt → names_of opt ≠ [].
Proof.
  intros (idx & Hidx & _)%elem_of_flat_items Hnil. by rewrite Hnil in Hidx.
Qed.

Lemma elem_of_option_deps opt d :
  d ∈ option_deps opt ↔ ∃ x, x ∈ opt_dependents opt ∧ d = dep_id x.
Proof.
  unfold option_deps, dep_ids_of. rewrite elem_of_list_to_set, list_elem_of_fmap.
  split; intros (x & ? & ?); eauto.
Qed.

Lemma rebuild_serialised root m merged :
  Forall (λ g, ∀ d, d ∈ g_deps g → is_Some d) merged →
  _prettify_xml (rebuild root m merged)
  = Ok (Document (root_attrib root) (output_option m <$> merged)).
Proof.
  intros Hids. unfold _prettify_xml, rebuild. simpl.
  rewrite tostring_options_Ok.
  - simpl. do 2 f_equal. rewrite <-list_fmap_compose.
    apply list_fmap_ext. intros _ g _. unfold output_option. simpl.
    f_equal. by rewrite <-list_fmap_compose.
  - apply Forall_fmap. eapply Forall_impl; [exact Hids|].
    intros g Hg. simpl. apply Forall_fmap, Forall_forall.
    intros d Hd%elem_of_sorted_deps. simpl. by apply Hg.
Qed.

Lemma rebuild_not_serialised root m merged :
  Exists (λ g, None ∈ g_deps g) merged →
  _prettify_xml (rebuild root m merged) = Raise TypeError.
Proof.
  intros Hex. unfold _prettify_xml, rebuild. simpl.
  rewrite tostring_options_Raise; [done|].
  apply Exists_fmap. eapply Exists_impl; [exact Hex|].
  intros g Hg. simpl. apply Exists_fmap, Exists_exists.
  exists None. split; [|done]. by apply elem_of_sorted_deps.
Qed.

(** With every identifier in place the function returns the canonical
    document. *)
Lemma generate_Ok root :
  ids_present root → generate_clean_xml_from_root root = Ok (canonical root).
Proof.
  intros Hids. unfold generate_clean_xml_from_root.
  change (merge _ _) with (merged_groups root). rewrite merged_groups_Ok.
  simpl. rewrite rebuild_serialised; [done|].
  apply Forall_forall. intros g Hg d Hd.
  destruct (group_deps_from_items _ g d Hg Hd) as (it & Hit & Hdit).
  apply elem_of_flat in Hit as (opt & Hopt & Hit).
  rewrite (flat_items_deps opt it Hit) in Hdit.
  apply elem_of_option_deps in Hdit as (x & Hx & ->).
  eapply ids_present_elim; [done..| |done]. by eapply flat_items_nonempty.
Qed.

(** A <dependent> without [id] under an <option> with a name token makes the
    serialisation raise. *)
Lemma generate_Raise root opt d :
  opt ∈ root_options root → names_of opt ≠ [] →
  d ∈ opt_dependents opt → dep_id d = None →
  generate_clean_xml_from_root root = Raise TypeError.
Proof.
  intros Hopt Hnames Hd Hnone. unfold generate_clean_xml_from_root.
  change (merge _ _) with (merged_groups root). rewrite merged_groups_Ok.
  simpl. apply rebuild_not_serialised, Exists_exists.
  destruct (names_of opt) as [|n ns] eqn:Hn; [done|].
  assert (∃ it, it ∈ flat_items opt) as [it Hit].
  { exists (FlatItem n (pair_value (values_of opt) 0) (list_to_set (dep_ids_of opt))).
    apply elem_of_flat_items. exists 0%nat. by rewrite Hn. }
  apply (item_deps_in_groups (flat (flatten root)) it None).
  - apply elem_of_flat. eauto.
  - rewrite (flat_items_deps opt it Hit). apply elem_of_option_deps.
    exists d. by rewrite Hnone.
Qed.

(** ** Value tokens of the input and of the output *)

Lemma elem_of_doc_values d v :
  v ∈ doc_values d ↔
  ∃ opt, opt ∈ root_options d ∧ v ∈ _split_field (default "" (opt_value opt)).
Proof.
  unfold doc_values. rewrite elem_of_union_list. split.
  - intros (X & (opt & -> & Hopt)%list_elem_of_fmap & Hv).
    apply elem_of_list_to_set in Hv. eauto.
  - intros (opt & Hopt & Hv). eexists. split.
    + apply list_elem_of_fmap. exists opt. split; [reflexivity|done].
    + by apply elem_of_list_to_set.
Qed.

Lemma elem_of_doc_values_of root v :
  v ∈ doc_values root ↔ ∃ opt, opt ∈ root_options root ∧ v ∈ values_of opt.
Proof.
  rewrite elem_of_doc_values. unfold values_of.
  split; intros (opt & ? & Hv); exists opt; split; try done.
  - by rewrite <-_split_field_split.
  - by rewrite _split_field_split.
Qed.

Lemma group_values_paired root g v :
  g ∈ groups_of (flat (flatten root)) → v ∈ g_values g →
  ∃ opt, opt ∈ root_options root ∧ v ∈ paired_values opt.
Proof.
  intros (it & _ & ->)%elem_of_groups_of (it' & Hit' & <- & _)%elem_of_group_values.
  apply elem_of_flat_values. by apply list_elem_of_fmap_2.
Qed.

Lemma group_names_named root g n :
  g ∈ groups_of (flat (flatten root)) → n ∈ g_names g →
  ∃ opt, opt ∈ root_options root ∧ n ∈ names_of opt.
Proof.
  intros (it & _ & ->)%elem_of_groups_of (it' & Hit' & <- & _)%elem_of_group_names.
  apply elem_of_flat in Hit' as (opt & Hopt & Hit'). exists opt. split; [done|].
  rewrite <-flat_items_names. by apply list_elem_of_fmap_2.
Qed.

Lemma group_values_joinable root g :
  g ∈ groups_of (flat (flatten root)) → joinable (g_values g).
Proof.
  intros Hg. apply Forall_forall. intros v Hv.
  destruct (group_values_paired root g v Hg Hv) as (opt & _ & Hp).
  by apply (proj1 (Forall_forall _ _) (paired_values_joinable opt)).
Qed.

Lemma group_names_tokens root g :
  g ∈ groups_of (flat (flatten root)) → Forall Str.token (g_names g).
Proof.
  intros Hg. apply Forall_forall. intros n Hn.
  destruct (group_names_named root g n Hg Hn) as (opt & _ & Hp).
  by apply (proj1 (Forall_forall _ _) (names_of_tokens opt)).
Qed.

(** What the export pass reads back from an output <option>. *)
Lemma output_values root g :
  g ∈ groups_of (flat (flatten root)) →
  _split_field (Str.join (g_values g)) = filter (λ t, t ≠ "") (g_values g).
Proof.
  intros Hg. rewrite _split_field_split. apply _split_join.
  by eapply group_values_joinable.
Qed.

Lemma output_names root g :
  g ∈ groups_of (flat (flatten root)) →
  _split_field (Str.join (g_names g)) = g_names g.
Proof.
  intros Hg. rewrite _split_field_split. apply _split_join_tokens.
  by eapply group_names_tokens.
Qed.

Lemma elem_of_canonical_values root v :
  v ∈ doc_values (canonical root) ↔
  v ≠ "" ∧ ∃ opt, opt ∈ root_options root ∧ v ∈ paired_values opt.
Proof.
  rewrite elem_of_doc_values. simpl. split.
  - intros (o & (g & -> & Hg)%list_elem_of_fmap & Hv). simpl in Hv.
    rewrite (output_values root g Hg) in Hv.
    apply list_elem_of_filter in Hv as [Hne Hv]. split; [done|].
    by eapply group_values_paired.
  - intros (Hne & Hv%elem_of_flat_values).
    destruct (group_of_value _ v Hv) as (i & Hi & Hin & _).
    apply list_elem_of_lookup_2 in Hi.
    set (g := group_for _ _ _) in *. clearbody g.
    exists (output_option (dep_id_to_name (flatten root)) g).
    split; [by apply list_elem_of_fmap_2|].
    change (v ∈ _split_field (Str.join (g_values g))).
    rewrite (output_values root g Hi). by apply list_elem_of_filter.
Qed.

Lemma canonical_values_sub root : doc_values (canonical root) ⊆ doc_values root.
Proof.
  intros v (Hne & opt & Hopt & Hv)%elem_of_canonical_values.
  apply elem_of_doc_values_of. exists opt. split; [done|].
  by apply paired_values_sub in Hv as [?|?].
Qed.

Lemma canonical_values_eq root :
  names_cover_values root → doc_values (canonical root) = doc_values root.
Proof.
  intros Hcover. apply set_eq. intros v. split; [apply canonical_values_sub|].
  intros (opt & Hopt & Hv)%elem_of_doc_values_of.
  apply elem_of_canonical_values. split; [by eapply values_of_nonempty|].
  exists opt. split; [done|]. apply values_paired; [|done].
  by eapply names_cover_values_elim.
Qed.

(** ** Records without value tokens *)

Lemma pair_value_empty values idx :
  Forall Str.token values → pair_value values idx = "" → values = [].
Proof.
  intros Htok Hp.
  destruct (pair_value_cases values idx) as [H|[[_ H]|[H _]]]; [| |done].
  - apply list_elem_of_lookup_2 in H.
    apply (proj1 (Forall_forall _ _) Htok) in H as [H _]. by rewrite Hp in H.
  - rewrite last_lookup in H. apply list_elem_of_lookup_2 in H.
    apply (proj1 (Forall_forall _ _) Htok) in H as [H _]. by rewrite Hp in H.
Qed.

Lemma paired_empty opt : "" ∈ paired_values opt ↔ empty_valued opt.
Proof.
  rewrite elem_of_paired_values. split.
  - intros (idx & Hidx & Hp). split.
    + intros Hn. rewrite Hn in Hidx. simpl in Hidx. lia.
    + eapply pair_value_empty; [apply values_of_tokens|done].
  - intros [Hn Hv]. exists 0%nat. split.
    + destruct (names_of opt); [done|]. simpl. lia.
    + unfold pair_value. by rewrite Hv.
Qed.


Lemma output_name_set root m g :
  g ∈ groups_of (flat (flatten root)) →
  name_set (output_option m g) = list_to_set (g_names g).
Proof.
  intros Hg. unfold name_set, output_option. simpl.
  by rewrite (output_names root g Hg).
Qed.

Lemma output_value_set root m g :
  g ∈ groups_of (flat (flatten root)) →
  value_set_of (output_option m g)
  = list_to_set (filter (λ t, t ≠ "") (g_values g)).
Proof.
  intros Hg. unfold value_set_of, output_option. simpl.
  by rewrite (output_values root g Hg).
Qed.

(** ** Documents that are already canonical *)

Lemma uniq_app_replicate `{EqDecision A} (l : list A) (x : A) (n : nat) :
  x ∉ l → uniq (l ++ replicate (S n) x) = uniq l ++ [x].
Proof.
  intros Hx. induction n as [|n IH].
  - by apply uniq_snoc_new.
  - rewrite replicate_S_end, app_assoc, uniq_snoc_old, IH; [done|].
    apply elem_of_app. right. by left.
Qed.

Lemma fmap_inj_NoDup `{EqDecision B} {A} (f : A → B) (l : list A) x y :
  NoDup (f <$> l) → x ∈ l → y ∈ l → f x = f y → x = y.
Proof.
  intros Hnd [i Hi]%list_elem_of_lookup [j Hj]%list_elem_of_lookup Heq.
  assert (i = j) as ->.
  { eapply (NoDup_lookup (f <$> l)); [done|..].
    - by rewrite list_lookup_fmap, Hi.
    - rewrite list_lookup_fmap, Hj. simpl. by rewrite Heq. }
  congruence.
Qed.

Section canonical_input.
Variable root : document.
Hypothesis Hdistinct : distinct_deps root.
Hypothesis Hminimal : merge_minimal root.
Hypothesis Hnamed : all_named root.

Local Abbreviation fl := (flat (flatten root)).

Lemma minimal_item_key opt it :
  opt ∈ root_options root → it ∈ flat_items opt →
  unified_key fl it = option_deps opt.
Proof.
  intros Hopt Hit. rewrite unified_key_item by (apply elem_of_flat; eauto).
  rewrite deps_for_pairing.
  apply (proj1 (Forall_forall _ _) Hminimal) in Hopt.
  apply (proj1 (Forall_forall _ _) Hopt).
  rewrite <-flat_items_values. by apply list_elem_of_fmap_2.
Qed.

Lemma minimal_keys_option opt :
  opt ∈ root_options root →
  unified_key fl <$> flat_items opt
  = replicate (length (names_of opt)) (option_deps opt).
Proof.
  intros Hopt. apply list_eq_same_length with (length (names_of opt)).
  - by rewrite length_replicate.
  - rewrite length_fmap. unfold flat_items. by rewrite length_imap.
  - intros i x y Hi. rewrite list_lookup_fmap.
    destruct (flat_items opt !! i) as [it|] eqn:Hit; [|done].
    intros [= <-] [-> _]%lookup_replicate.
    apply minimal_item_key; [done|]. by eapply list_elem_of_lookup_2.
Qed.

Lemma minimal_keys_prefix opts :
  opts ⊆ root_options root → NoDup (option_deps <$> opts) →
  uniq (unified_key fl <$> (opts ≫= flat_items)) = option_deps <$> opts.
Proof.
  induction opts as [|opt opts IH] using rev_ind; [done|].
  intros Hsub Hnd. rewrite bind_app, fmap_app. simpl. rewrite app_nil_r.
  assert (opt ∈ root_options root) as Hopt.
  { apply Hsub, elem_of_app. right. by left. }
  rewrite fmap_app in Hnd. apply NoDup_app in Hnd as (Hnd & Hnew & _).
  rewrite minimal_keys_option by done.
  destruct (length (names_of opt)) as [|n] eqn:Hlen.
  { apply (proj1 (Forall_forall _ _) Hnamed) in Hopt.
    by destruct (names_of opt). }
  rewrite uniq_app_replicate.
  - rewrite IH; [by rewrite fmap_app| |done].
    intros o Ho. apply Hsub, elem_of_app. by left.
  - intros (it & Hk & (o & Hit & Ho)%list_elem_of_bind)%list_elem_of_fmap.
    apply (Hnew (option_deps opt)); [|by left].
    rewrite Hk, (minimal_item_key o it); [by apply list_elem_of_fmap_2| |done].
    apply Hsub, elem_of_app. by left.
Qed.

Lemma minimal_groups :
  groups_of fl
  = (λ opt, group_for (unify fl) (option_deps opt) fl) <$> root_options root.
Proof.
  unfold groups_of. rewrite flatten_flat at 2.
  rewrite minimal_keys_prefix; [|done|done].
  by rewrite <-list_fmap_compose.
Qed.

Lemma minimal_group_names opt n :
  opt ∈ root_options root →
  n ∈ g_names (group_for (unify fl) (option_deps opt) fl) ↔ n ∈ names_of opt.
Proof.
  intros Hopt. rewrite elem_of_group_names. split.
  - intros (it & (o & Ho & Hit)%elem_of_flat & <- & Hk).
    rewrite <-unified_key_item in Hk by (apply elem_of_flat; eauto).
    rewrite (minimal_item_key o it Ho Hit) in Hk.
    apply (fmap_inj_NoDup option_deps _ _ _ Hdistinct Ho Hopt) in Hk as ->.
    rewrite <-flat_items_names. by apply list_elem_of_fmap_2.
  - rewrite <-flat_items_names. intros (it & -> & Hit)%list_elem_of_fmap.
    exists it. split_and!; [apply elem_of_flat; eauto|done|].
    rewrite <-unified_key_item by (apply elem_of_flat; eauto).
    by apply minimal_item_key.
Qed.

Lemma minimal_group_values opt v :
  opt ∈ root_options root →
  v ∈ g_values (group_for (unify fl) (option_deps opt) fl) ↔ v ∈ paired_values opt.
Proof.
  intros Hopt. rewrite elem_of_group_values. split.
  - intros (it & (o & Ho & Hit)%elem_of_flat & <- & Hk).
    rewrite <-unified_key_item in Hk by (apply elem_of_flat; eauto).
    rewrite (minimal_item_key o it Ho Hit) in Hk.
    apply (fmap_inj_NoDup option_deps _ _ _ Hdistinct Ho Hopt) in Hk as ->.
    rewrite <-flat_items_values. by apply list_elem_of_fmap_2.
  - rewrite <-flat_items_values. intros (it & -> & Hit)%list_elem_of_fmap.
    exists it. split_and!; [apply elem_of_flat; eauto|done|].
    rewrite <-unified_key_item by (apply elem_of_flat; eauto).
    by apply minimal_item_key.
Qed.

Lemma minimal_same_groups :
  names_cover_values root → same_groups root (canonical root).
Proof.
  intros Hcover. unfold same_groups, canonical. simpl. rewrite minimal_groups.
  rewrite <-list_fmap_compose. split; [by rewrite length_fmap|].
  apply Forall2_fmap_r, Forall_Forall2_diag, Forall_forall. intros opt Hopt.
  assert (group_for (unify fl) (option_deps opt) fl ∈ groups_of fl) as Hg.
  { rewrite minimal_groups. by apply (list_elem_of_fmap_2 (λ o, group_for _ (option_deps o) _)). }
  unfold compose.
  rewrite (output_name_set root _ _ Hg), (output_value_set root _ _ Hg).
  unfold name_set, value_set_of. split.
  - apply set_eq. intros n. rewrite !elem_of_list_to_set, _split_field_split.
    by apply minimal_group_names.
  - apply set_eq. intros v.
    rewrite !elem_of_list_to_set, _split_field_split, list_elem_of_filter.
    rewrite minimal_group_values by done. split.
    + intros [Hne [?|?]%paired_values_sub]; done.
    + intros Hv. split; [by eapply values_of_nonempty|].
      apply values_paired; [|done]. by eapply names_cover_values_elim.
Qed.
End canonical_input.

(** ** The export pass: original index *)

Lemma register_value_sets values_set deps st values v :
  default [] (value_to_original_group_sets
                (foldl (register_value values_set deps) st values) !! v)
  = default [] (value_to_original_group_sets st !! v)
    ++ ((λ _, values_set) <$> filter (λ x, x = v) values).
Proof.
  revert st. induction values as [|x values IH]; intros st.
  - by rewrite app_nil_r.
  - simpl. rewrite IH. simpl. destruct (decide (x = v)) as [->|Hne].
    + rewrite lookup_insert_eq, filter_cons_True by done. simpl.
      by rewrite <-app_assoc.
    + rewrite lookup_insert_ne, filter_cons_False by done. done.
Qed.

Lemma register_value_other values_set deps st values :
  original_group_set_to_id (foldl (register_value values_set deps) st values)
  = original_group_set_to_id st
  ∧ g_count (foldl (register_value values_set deps) st values) = g_count st
  ∧ original_groups (foldl (register_value values_set deps) st values)
    = original_groups st.
Proof.
  revert st. induction values as [|x values IH]; intros st; [done|].
  simpl. by destruct (IH (register_value values_set deps st x)) as (-> & -> & ->).
Qed.

Lemma index_original_option_sets st opt v :
  default [] (value_to_original_group_sets (index_original_option st opt) !! v)
  = default [] (value_to_original_group_sets st !! v)
    ++ ((λ _, raw_set opt) <$> filter (λ x, x = v) (raw_values opt)).
Proof. unfold index_original_option. by rewrite register_value_sets. Qed.

Lemma index_original_sets_fold st opts v :
  default [] (value_to_original_group_sets (foldl index_original_option st opts) !! v)
  = default [] (value_to_original_group_sets st !! v)
    ++ (opts ≫= (λ opt, (λ _, raw_set opt) <$> filter (λ x, x = v) (raw_values opt))).
Proof.
  revert st. induction opts as [|opt opts IH]; intros st; simpl.
  - by rewrite app_nil_r.
  - rewrite IH, index_original_option_sets. by rewrite <-app_assoc.
Qed.

(** [value_to_original_group_sets.get(v, [])] *)
Lemma index_original_sets root_original v :
  default [] (value_to_original_group_sets (index_original root_original) !! v)
  = original_sets_of root_original v.
Proof. unfold index_original. by rewrite index_original_sets_fold. Qed.

Lemma elem_of_original_sets_of root_original v s :
  s ∈ original_sets_of root_original v ↔ originally_in root_original v s.
Proof.
  unfold original_sets_of, originally_in. rewrite list_elem_of_bind. split.
  - intros (opt & (x & -> & [-> Hx]%list_elem_of_filter)%list_elem_of_fmap & Hopt).
    eauto.
  - intros (opt & Hopt & Hv & <-). exists opt. split; [|done].
    apply list_elem_of_fmap. exists v. split; [done|].
    by apply list_elem_of_filter.
Qed.

(** ** The export pass: the rows in closed form *)

Lemma emit_value_fold ix nm cg gid sr rows vs :
  foldl (emit_value ix nm cg gid) (sr, rows) vs
  = ((sr + length vs)%nat,
     rows ++ imap (λ i v, make_row ix nm cg gid (sr + i) v) vs).
Proof.
  revert sr rows. induction vs as [|v vs IH]; intros sr rows; simpl.
  - by rewrite Nat.add_0_r, app_nil_r.
  - unfold emit_value at 2. simpl. rewrite IH. f_equal; [lia|].
    rewrite <-app_assoc. simpl. rewrite Nat.add_0_r. do 2 f_equal.
    apply imap_ext. intros i x _. simpl. f_equal. lia.
Qed.

Lemma emit_group_fold ix nm sr rows ps :
  foldl (emit_group ix nm) (sr, rows) ps
  = ((sr + length (report_entries ps))%nat,
     rows ++ imap (λ i e, make_row ix nm e.1.1 e.1.2 (sr + i) e.2) (report_entries ps)).
Proof.
  revert sr rows. induction ps as [|[cg gid] ps IH]; intros sr rows; simpl.
  - by rewrite Nat.add_0_r, app_nil_r.
  - unfold emit_group at 2. simpl. rewrite emit_value_fold, IH.
    unfold report_entries. simpl. fold (report_entries ps).
    rewrite length_app, length_fmap. f_equal; [lia|].
    rewrite imap_app, imap_fmap, length_fmap, <-app_assoc. simpl.
    do 2 f_equal. apply imap_ext. intros i e _. simpl. f_equal. lia.
Qed.

Lemma export_rows_closed root_original root_clean :
  export_rows root_original root_clean
  = imap (λ i e, make_row (index_original root_original) (original_names root_original)
                   e.1.1 e.1.2 (1 + i) e.2)
         (report_entries
            (zip (cleaned_groups_of root_clean)
                 (final_group_assignments
                    (hybrid_numbering (index_original root_original)
                       (cleaned_groups_of root_clean))))).
Proof. unfold export_rows. by rewrite emit_group_fold. Qed.

Lemma assign_group_length m st cgs :
  length (final_group_assignments (foldl (assign_group m) st cgs))
  = (length (final_group_assignments st) + length cgs)%nat.
Proof.
  revert st. induction cgs as [|cg cgs IH]; intros st; simpl; [lia|].
  rewrite IH. unfold assign_group.
  repeat case_match; simpl; rewrite length_app; simpl; lia.
Qed.

Lemma hybrid_numbering_length ix cgs :
  length (final_group_assignments (hybrid_numbering ix cgs)) = length cgs.
Proof. unfold hybrid_numbering. by rewrite assign_group_length. Qed.

Lemma report_entries_cons p ps :
  report_entries (p :: ps) = ((λ v, (p, v)) <$> cg_values p.1) ++ report_entries ps.
Proof. done. Qed.

Lemma report_entries_values ps :
  (λ e, e.2) <$> report_entries ps = ps.*1 ≫= cg_values.
Proof.
  induction ps as [|p ps IH]; [done|].
  rewrite report_entries_cons, fmap_app, IH, fmap_cons, bind_cons. f_equal.
  rewrite <-list_fmap_compose. apply list_fmap_id.
Qed.

Lemma export_rows_values root_original root_clean :
  value_id <$> export_rows root_original root_clean
  = cleaned_groups_of root_clean ≫= cg_values.
Proof.
  rewrite export_rows_closed, fmap_imap.
  set (ps := zip _ _).
  transitivity ((λ e : cleaned_group * string * string, e.2) <$> report_entries ps).
  - apply list_eq. intros i. rewrite list_lookup_imap, list_lookup_fmap.
    by destruct (report_entries ps !! i).
  - rewrite report_entries_values. unfold ps. rewrite fst_zip; [done|].
    rewrite hybrid_numbering_length. lia.
Qed.

Lemma export_rows_serials root_original root_clean :
  sr_no <$> export_rows root_original root_clean
  = seq 1 (length (export_rows root_original root_clean)).
Proof.
  rewrite export_rows_closed, fmap_imap, length_imap.
  set (es := report_entries _).
  transitivity (imap (λ j (_ : cleaned_group * string * string), S j) es).
  - by apply imap_ext.
  - rewrite imap_seq_0. apply fmap_S_seq.
Qed.

Lemma make_row_status root_original nm cg gid sr v :
  status_correct root_original cg
    (make_row (index_original root_original) nm cg gid sr v).
Proof.
  unfold status_correct. simpl. unfold group_status_of.
  rewrite index_original_sets. split_and!.
  - rewrite <-elem_of_original_sets_of. by case_decide.
  - rewrite <-elem_of_original_sets_of. intros ?. by case_decide.
  - intros Hnone.
    assert (original_sets_of root_original v = []) as ->
      by by rewrite <-index_original_sets, Hnone.
    case_decide as Hin; [by apply elem_of_nil in Hin|done].
Qed.

Lemma elem_of_report_entries ps cg gid v :
  (cg, gid, v) ∈ report_entries ps ↔ (cg, gid) ∈ ps ∧ v ∈ cg_values cg.
Proof.
  unfold report_entries. rewrite list_elem_of_bind. split.
  - intros ([cg' gid'] & (v' & [= -> -> ->] & Hv)%list_elem_of_fmap & Hp). done.
  - intros [Hp Hv]. exists (cg, gid). split; [|done].
    by apply (list_elem_of_fmap_2 (λ v, (cg, gid, v))).
Qed.

Lemma elem_of_export_rows root_original root_clean r :
  r ∈ export_rows root_original root_clean ↔
  ∃ i cg gid v,
    report_entries
      (zip (cleaned_groups_of root_clean)
           (final_group_assignments
              (hybrid_numbering (index_original root_original)
                 (cleaned_groups_of root_clean)))) !! i = Some (cg, gid, v)
    ∧ r = make_row (index_original root_original) (original_names root_original)
            cg gid (1 + i) v.
Proof.
  rewrite export_rows_closed, elem_of_lookup_imap. split.
  - intros (i & [[cg gid] v] & -> & Hi). by exists i, cg, gid, v.
  - intros (i & cg & gid & v & Hi & ->). by exists i, (cg, gid, v).
Qed.

Lemma zip_assignments_cover root_original root_clean cg :
  cg ∈ cleaned_groups_of root_clean →
  ∃ gid, (cg, gid) ∈ zip (cleaned_groups_of root_clean)
                         (final_group_assignments
                            (hybrid_numbering (index_original root_original)
                               (cleaned_groups_of root_clean))).
Proof.
  intros [j Hj]%list_elem_of_lookup.
  destruct (lookup_lt_is_Some_2
              (final_group_assignments
                 (hybrid_numbering (index_original root_original)
                    (cleaned_groups_of root_clean))) j) as [gid Hgid].
  { rewrite hybrid_numbering_length. by eapply lookup_lt_Some. }
  exists gid. apply list_elem_of_lookup. exists j. by apply lookup_zip_Some.
Qed.

(** ** What the function returns, when it returns *)

Lemma tostring_dependents_inv ds ds' :
  tostring_dependents ds = Ok ds' →
  ds' = (λ d, Dependent (nd_id d) (Some (nd_name d))) <$> ds.
Proof.
  revert ds'. induction ds as [|d ds IH]; intros ds'; simpl.
  - by intros [= <-].
  - unfold tostring_dependent. destruct (nd_id d) as [i|] eqn:Hi; simpl; [|done].
    destruct (tostring_dependents ds) as [ds''|]; simpl; [|done].
    intros [= <-]. f_equal. by apply IH.
Qed.

Lemma tostring_options_inv os os' :
  tostring_options os = Ok os' →
  os' = (λ o, OptionEl (Some (no_name o)) (Some (no_value o))
                ((λ d, Dependent (nd_id d) (Some (nd_name d))) <$> no_dependents o))
          <$> os.
Proof.
  revert os'. induction os as [|o os IH]; intros os'; simpl.
  - by intros [= <-].
  - unfold tostring_option.
    destruct (tostring_dependents (no_dependents o)) as [ds|] eqn:Hds; simpl; [|done].
    destruct (tostring_options os) as [os''|]; simpl; [|done].
    intros [= <-]. rewrite (tostring_dependents_inv _ _ Hds). f_equal. by apply IH.
Qed.

Lemma generate_inv root out :
  generate_clean_xml_from_root root = Ok out → out = canonical root.
Proof.
  unfold generate_clean_xml_from_root.
  change (merge _ _) with (merged_groups root). rewrite merged_groups_Ok.
  simpl. unfold _prettify_xml, rebuild. simpl.
  destruct (tostring_options _) as [os|] eqn:Hos; simpl; [|done].
  intros [= <-]. rewrite (tostring_options_inv _ _ Hos).
  unfold canonical. f_equal. rewrite <-list_fmap_compose.
  apply list_fmap_ext. intros _ g _. unfold output_option. simpl.
  f_equal. by rewrite <-list_fmap_compose.
Qed.

(** ** The values of the cleaned groups *)

Lemma cleaned_values d :
  cleaned_groups_of d ≫= cg_values = root_options d ≫= raw_values.
Proof.
  unfold cleaned_groups_of. induction (root_options d) as [|opt opts IH]; [done|].
  rewrite fmap_cons, !bind_cons, IH. done.
Qed.

Lemma doc_values_list d : doc_values d = list_to_set (root_options d ≫= raw_values).
Proof.
  apply set_eq. intros v.
  rewrite elem_of_doc_values, elem_of_list_to_set, list_elem_of_bind.
  split; intros (opt & ? & ?); eauto.
Qed.

Lemma NoDup_groups fl : NoDup (groups_of fl).
Proof. eapply NoDup_fmap_1, NoDup_groups_deps. Qed.

Lemma NoDup_group_values fl : NoDup (groups_of fl ≫= g_values).
Proof.
  apply NoDup_bind; [| |apply NoDup_groups].
  - intros g1 g2 v [i1 Hi1]%list_elem_of_lookup [i2 Hi2]%list_elem_of_lookup Hv1 Hv2.
    assert (v ∈ fi_value <$> fl) as Hv.
    { destruct (groups_of_lookup _ _ _ Hi1) as (k & _ & ->).
      apply elem_of_group_values in Hv1 as (it & Hit & <- & _).
      by apply list_elem_of_fmap_2. }
    destruct (group_of_value fl v Hv) as (i & _ & _ & Huniq).
    rewrite (Huniq i1 g1 Hi1 Hv1) in Hi1. rewrite (Huniq i2 g2 Hi2 Hv2) in Hi2.
    congruence.
  - intros g (it & _ & ->)%elem_of_groups_of. apply NoDup_uniq.
Qed.

Lemma filter_bind {A B} (P : B → Prop) `{!∀ x, Decision (P x)} (f : A → list B) l :
  filter P (l ≫= f) = l ≫= (λ x, filter P (f x)).
Proof.
  induction l as [|x l IH]; [done|].
  by rewrite !bind_cons, filter_app, IH.
Qed.

Lemma canonical_raw_values root :
  root_options (canonical root) ≫= raw_values
  = filter (λ t, t ≠ "") (groups_of (flat (flatten root)) ≫= g_values).
Proof.
  rewrite filter_bind. unfold canonical. simpl.
  assert (∀ gs, gs ⊆ groups_of (flat (flatten root)) →
    (output_option (dep_id_to_name (flatten root)) <$> gs) ≫= raw_values
    = gs ≫= (λ g, filter (λ t, t ≠ "") (g_values g))) as Hgen.
  { induction gs as [|g gs IH]; intros Hsub; [done|].
    rewrite fmap_cons, !bind_cons, IH.
    - f_equal. unfold raw_values, output_option. simpl.
      apply (output_values root). apply Hsub. by left.
    - intros g' Hg'. apply Hsub. by right. }
  by apply Hgen.
Qed.

Lemma NoDup_canonical_values root :
  NoDup (root_options (canonical root) ≫= raw_values).
Proof.
  rewrite canonical_raw_values. apply NoDup_filter, NoDup_group_values.
Qed.

(** ** Hybrid numbering *)

Section first_index.
Context `{EqDecision A}.
Implicit Types (x y : A) (l : list A).

Lemma first_index_None x l : first_index x l = None ↔ x ∉ l.
Proof.
  induction l as [|y l IH]; simpl.
  - split; [intros _; apply not_elem_of_nil|done].
  - case_decide as Hxy.
    + subst. split; [done|]. intros Hn. destruct Hn. by left.
    + rewrite fmap_None, IH, not_elem_of_cons. tauto.
Qed.

Lemma first_index_is_Some x l : x ∈ l → is_Some (first_index x l).
Proof.
  intros Hx. destruct (first_index x l) eqn:Hf; [by eexists|].
  by apply first_index_None in Hf.
Qed.

Lemma first_index_snoc x l y :
  first_index x (l ++ [y])
  = match first_index x l with
    | Some j => Some j
    | None => if decide (x = y) then Some (length l) else None
    end.
Proof.
  induction l as [|z l IH]; simpl.
  - by case_decide.
  - destruct (decide (x = z)); [done|]. rewrite IH.
    destruct (first_index x l); [done|]. simpl. by case_decide.
Qed.

(** It is an occurrence, and the first one. *)
Lemma first_index_Some x l j :
  first_index x l = Some j →
  l !! j = Some x ∧ ∀ i, (i < j)%nat → l !! i ≠ Some x.
Proof.
  revert j. induction l as [|y l IH]; intros j; simpl; [done|].
  case_decide as Hxy.
  - intros [= <-]. subst. split; [done|]. intros i Hi. lia.
  - destruct (first_index x l) as [k|]; simpl; [|done]. intros [= <-].
    destruct (IH k eq_refl) as [Hk Hfirst]. split; [done|].
    intros [|i] Hi; simpl.
    + by intros [= ->].
    + apply Hfirst. lia.
Qed.
End first_index.

Lemma index_fold_spec opts :
  let st := foldl index_original_option (OriginalIndex [] ∅ ∅ ∅ 0) opts in
  g_count st = length opts
  ∧ og_id <$> original_groups st = gid_of <$> seq 1 (length opts)
  ∧ ∀ s, original_group_set_to_id st !! s
         = (λ j, gid_of (S j)) <$> first_index s (raw_set <$> opts).
Proof.
  induction opts as [|opt opts IH] using rev_ind; [done|].
  rewrite foldl_snoc. cbv zeta in *.
  set (st := foldl index_original_option (OriginalIndex [] ∅ ∅ ∅ 0) opts) in *.
  destruct IH as (Hcount & Hids & Hmap).
  unfold index_original_option.
  destruct (register_value_other
              (list_to_set (_split_field (default "" (opt_value opt))))
              (sorted_strings (dep_string <$> opt_dependents opt))
              {| original_groups := original_groups st ++
                   [OriginalGroup (gid_of (S (g_count st)))
                      (list_to_set (_split_field (default "" (opt_value opt))))
                      (_split_field (default "" (opt_name opt)))
                      (sorted_strings (dep_string <$> opt_dependents opt))];
                 original_group_set_to_id :=
                   match original_group_set_to_id st
                         !! list_to_set (_split_field (default "" (opt_value opt))) with
                   | None => <[list_to_set (_split_field (default "" (opt_value opt)))
                               := gid_of (S (g_count st))]> (original_group_set_to_id st)
                   | Some _ => original_group_set_to_id st
                   end;
                 value_to_original_group_sets := value_to_original_group_sets st;
                 value_to_original_deps := value_to_original_deps st;
                 g_count := S (g_count st) |}
              (_split_field (default "" (opt_value opt)))) as (-> & -> & ->).
  simpl. rewrite length_app. simpl. split_and!.
  - lia.
  - rewrite fmap_app, Hids, Hcount. simpl.
    replace (length opts + 1)%nat with (S (length opts)) by lia.
    by rewrite seq_S, fmap_app.
  - intros s. rewrite fmap_app, list_fmap_singleton, first_index_snoc.
    fold (raw_values opt). fold (raw_set opt).
    rewrite (Hmap (raw_set opt)).
    destruct (first_index (raw_set opt) (raw_set <$> opts)) as [j|] eqn:Hj; simpl.
    + rewrite Hmap. destruct (first_index s (raw_set <$> opts)) eqn:Hs; [done|].
      simpl. case_decide as Heq; [|done]. subst. congruence.
    + destruct (decide (s = raw_set opt)) as [->|Hne].
      * rewrite lookup_insert_eq, Hj. simpl. by rewrite length_fmap, Hcount.
      * rewrite lookup_insert_ne by done. rewrite Hmap.
        by destruct (first_index s (raw_set <$> opts)).
Qed.

Lemma index_original_spec root_original :
  g_count (index_original root_original) = length (root_options root_original)
  ∧ og_id <$> original_groups (index_original root_original)
    = gid_of <$> seq 1 (length (root_options root_original))
  ∧ ∀ s, original_group_set_to_id (index_original root_original) !! s
         = (λ j, gid_of (S j)) <$> first_index s (raw_set <$> root_options root_original).
Proof. apply index_fold_spec. Qed.

Section numbering.
Variable original_sets : list value_set.
Variable m : gmap value_set string.
Hypothesis Hm : ∀ s, m !! s = (λ j, gid_of (S j)) <$> first_index s original_sets.

Local Abbreviation n := (length original_sets).
Local Abbreviation start := (Numbering (n + 1) [] [] ∅).

Lemma fresh_sets_snoc_old sets s :
  s ∈ original_sets → fresh_sets original_sets (sets ++ [s]) = fresh_sets original_sets sets.
Proof.
  intros Hs. unfold fresh_sets. rewrite filter_app.
  rewrite (filter_cons_False _ s), filter_nil by (by intros ?).
  by rewrite app_nil_r.
Qed.

Lemma fresh_sets_snoc_new sets s :
  s ∉ original_sets →
  fresh_sets original_sets (sets ++ [s])
  = push_unique s (fresh_sets original_sets sets).
Proof.
  intros Hs. unfold fresh_sets. rewrite filter_app.
  rewrite (filter_cons_True _ s), filter_nil by done.
  by rewrite uniq_snoc.
Qed.

Lemma spec_final_id_snoc fresh s s' :
  (first_index s' original_sets = None → s' ∈ fresh) →
  spec_final_id original_sets (fresh ++ [s]) s' = spec_final_id original_sets fresh s'.
Proof.
  intros Hin. unfold spec_final_id.
  destruct (first_index s' original_sets); [done|].
  rewrite first_index_snoc.
  by destruct (first_index_is_Some s' fresh (Hin eq_refl)) as [k ->].
Qed.

Lemma numbering_spec cgs :
  let st := foldl (assign_group m) start cgs in
  let sets := cg_values_set <$> cgs in
  let fresh := fresh_sets original_sets sets in
  next_g_index st = (n + 1 + length fresh)%nat
  ∧ final_group_assignments st = spec_final_id original_sets fresh <$> sets
  ∧ ∀ s, first_index s original_sets = None →
         final_valueset_to_gid st !! s
         = (λ k, gid_of (n + 1 + k)) <$> first_index s fresh.
Proof.
  induction cgs as [|cg cgs IH] using rev_ind.
  - simpl. split_and!; [lia|done|]. intros s _. by rewrite lookup_empty.
  - cbv zeta in *. rewrite foldl_snoc, fmap_app, list_fmap_singleton.
    set (st := foldl (assign_group m) start cgs) in *.
    set (sets := cg_values_set <$> cgs) in *.
    set (s := cg_values_set cg).
    destruct IH as (Hnext & Hassign & Hmap).
    unfold assign_group. fold s. rewrite (Hm s).
    destruct (first_index s original_sets) as [j|] eqn:Hj; simpl.
    + assert (s ∈ original_sets) as Hs.
      { apply dec_stable. intros Hn. apply first_index_None in Hn. congruence. }
      rewrite fresh_sets_snoc_old by done. split_and!.
      * done.
      * rewrite fmap_app, list_fmap_singleton, Hassign. f_equal.
        unfold spec_final_id. by rewrite Hj.
      * intros s' Hs'. rewrite lookup_insert_ne; [by apply Hmap|].
        intros <-. congruence.
    + assert (s ∉ original_sets) as Hs by by apply first_index_None.
      rewrite fresh_sets_snoc_new by done. rewrite (Hmap s Hj).
      destruct (first_index s (fresh_sets original_sets sets)) as [k|] eqn:Hk; simpl.
      * assert (s ∈ fresh_sets original_sets sets) as Hin.
        { apply dec_stable. intros Hn. apply first_index_None in Hn. congruence. }
        unfold push_unique. rewrite decide_True by done. split_and!.
        -- done.
        -- rewrite fmap_app, list_fmap_singleton, Hassign. f_equal.
           unfold spec_final_id. by rewrite Hj, Hk.
        -- done.
      * assert (s ∉ fresh_sets original_sets sets) as Hin by by apply first_index_None.
        unfold push_unique. rewrite decide_False by done. split_and!.
        -- rewrite Hnext, length_app. simpl. lia.
        -- rewrite fmap_app, list_fmap_singleton, Hassign. f_equal.
           ++ apply list_fmap_ext. intros _ s' Hs'%list_elem_of_lookup_2.
              symmetry. apply spec_final_id_snoc. intros Hnone.
              apply elem_of_uniq, list_elem_of_filter. split; [|done].
              by apply first_index_None.
           ++ unfold spec_final_id. rewrite Hj, first_index_snoc, Hk.
              rewrite decide_True by done. by rewrite Hnext.
        -- intros s' Hs'. rewrite first_index_snoc.
           destruct (decide (s = s')) as [<-|Hne].
           ++ rewrite lookup_insert_eq, Hk, decide_True by done. simpl.
              by rewrite Hnext.
           ++ rewrite lookup_insert_ne by done. rewrite (Hmap s' Hs').
              destruct (first_index s' (fresh_sets original_sets sets)); [done|].
              by rewrite decide_False by done.
Qed.
End numbering.

(** Identifiers of different numbers differ, so the identifiers minted from
    G(n+1) on are fresh and distinct for distinct value sets. *)
Lemma gid_of_inj n1 n2 : gid_of n1 = gid_of n2 → n1 = n2.
Proof.
  unfold gid_of. intros H. apply (inj (String.app "G")) in H.
  by apply (inj pretty) in H.
Qed.

Lemma spec_final_id_original original_sets fresh s :
  s ∈ original_sets →
  ∃ j, first_index s original_sets = Some j
       ∧ (j < length original_sets)%nat
       ∧ spec_final_id original_sets fresh s = gid_of (S j).
Proof.
  intros [j Hj]%first_index_is_Some. exists j. split_and!; [done| |].
  - apply first_index_Some in Hj as [Hj _]. by eapply lookup_lt_Some.
  - unfold spec_final_id. by rewrite Hj.
Qed.

Lemma spec_final_id_new original_sets fresh s :
  s ∉ original_sets → s ∈ fresh →
  ∃ k, first_index s fresh = Some k
       ∧ spec_final_id original_sets fresh s = gid_of (length original_sets + 1 + k).
Proof.
  intros Hs%first_index_None [k Hk]%first_index_is_Some. exists k.
  split; [done|]. unfold spec_final_id. by rewrite Hs, Hk.
Qed.

Lemma spec_final_id_new_fresh original_sets fresh s s' :
  s ∉ original_sets → s ∈ fresh → s' ∈ original_sets →
  spec_final_id original_sets fresh s ≠ spec_final_id original_sets fresh s'.
Proof.
  intros Hs Hf Hs'.
  destruct (spec_final_id_new _ _ _ Hs Hf) as (k & _ & ->).
  destruct (spec_final_id_original _ fresh _ Hs') as (j & _ & Hj & ->).
  intros ?%gid_of_inj. lia.
Qed.

Lemma spec_final_id_new_inj original_sets fresh s1 s2 :
  s1 ∉ original_sets → s1 ∈ fresh → s2 ∉ original_sets → s2 ∈ fresh →
  spec_final_id original_sets fresh s1 = spec_final_id original_sets fresh s2 →
  s1 = s2.
Proof.
  intros H1 Hf1 H2 Hf2.
  destruct (spec_final_id_new _ _ _ H1 Hf1) as (k1 & Hk1 & ->).
  destruct (spec_final_id_new _ _ _ H2 Hf2) as (k2 & Hk2 & ->).
  intros Heq%gid_of_inj. assert (k1 = k2) as -> by lia.
  apply first_index_Some in Hk1 as [Hk1 _]. apply first_index_Some in Hk2 as [Hk2 _].
  congruence.
Qed.

(** * The claims *)

(** ** C9: positional pairing in the flattener *)

(** C9.  The items one <option> adds to [flat] are one per name token, in
    order; the item of the i-th name carries the i-th value token when there
    is one, the last value token when the values run out, and the empty
    string when there is no value token at all. *)
Theorem C9_flattener_pairing (st : flat_state) (opt : option_el) :
  ∃ items,
    flat (flatten_option st opt) = flat st ++ items
    ∧ length items = length (names_of opt)
    ∧ ∀ idx name, names_of opt !! idx = Some name →
        ∃ value,
          items !! idx = Some (FlatItem name value (list_to_set (dep_ids_of opt)))
          ∧ (∀ v, values_of opt !! idx = Some v → value = v)
          ∧ ((length (values_of opt) ≤ idx)%nat →
               ∀ v, last (values_of opt) = Some v → value = v)
          ∧ (values_of opt = [] → value = "").
Proof.
  exists (flat_items opt). split_and!.
  - apply flatten_option_flat.
  - unfold flat_items. by rewrite length_imap.
  - intros idx name Hname. exists (pair_value (values_of opt) idx). split_and!.
    + unfold flat_items. by rewrite list_lookup_imap, Hname.
    + intros v Hv. unfold pair_value. by rewrite Hv.
    + intros Hlen v Hv. unfold pair_value.
      rewrite (lookup_ge_None_2 _ _ Hlen). by rewrite Hv.
    + intros Hnil. unfold pair_value. by rewrite Hnil.
Qed.

(** ** C1: merge correctness *)



(** ** C2: dependent union correctness *)

(** C2 as stated fails: the first record holds the tokens "1,2" for the one
    name "A", so its "2" is never paired; the group of "2" has the
    dependents of the second record only. *)
Lemma C2_counterexample : ¬ spec_dependent_union C2_doc.
Proof.
  intros H.
  specialize (H "2" [Group ["A"] ["1"] {[Some "d1"]}; Group ["B"] ["2"] {[Some "d2"]}]
                (Group ["B"] ["2"] {[Some "d2"]})).
  assert (Some "d1" ∈ ({[Some "d2"]} : dep_set)) as Hin; [|set_solver].
  simpl in H. rewrite H.
  - apply elem_of_containing_deps.
    exists (OptionEl (Some "A") (Some "1,2") [Dependent (Some "d1") (Some "X")]).
    split_and!; [by left| |].
    + by_compute.
    + by_compute.
  - exists (OptionEl (Some "B") (Some "2") [Dependent (Some "d2") (Some "Y")]).
    split; [by right; left|]. by_compute.
  - by vm_compute.
  - by right; left.
  - by left.
Qed.

(** C2, amended.  For every value that the flattener pairs with a name, the
    group that contains it (there is exactly one) has as its dependent set
    the union of the dependent-identifier sets of the original records in
    which that value is paired with a name.  Where no record has more value
    tokens than name tokens these are, for a value token, the records that
    contain it. *)
Theorem C2_dependent_union (root : document) (v : string) :
  v ∈ root_options root ≫= paired_values →
  ∃ merged i g,
    merged_groups root = Ok merged
    ∧ merged !! i = Some g ∧ v ∈ g_values g
    ∧ (∀ j g', merged !! j = Some g' → v ∈ g_values g' → j = i)
    ∧ g_deps g = pairing_deps root v
    ∧ (names_cover_values root → v ≠ "" → g_deps g = containing_deps root v).
Proof.
  intros (opt & Hv & Hopt)%list_elem_of_bind.
  set (fl := flat (flatten root)).
  assert (v ∈ fi_value <$> fl) as Hfl by (apply elem_of_flat_values; eauto).
  destruct (group_of_value fl v Hfl) as (i & Hi & Hin & Huniq).
  eexists (groups_of fl), i, _.
  split_and!; [apply merged_groups_Ok|done..| |].
  - apply deps_for_pairing.
  - intros Hcover Hne. simpl. unfold fl.
    rewrite deps_for_pairing. by apply pairing_containing.
Qed.

Lemma C2_dependent_union_witness :
  ∃ merged i g,
    merged_groups C2_doc = Ok merged
    ∧ merged !! i = Some g ∧ "2" ∈ g_values g
    ∧ (∀ j g', merged !! j = Some g' → "2" ∈ g_values g' → j = i)
    ∧ g_deps g = pairing_deps C2_doc "2"
    ∧ (names_cover_values C2_doc → "2" ≠ "" → g_deps g = containing_deps C2_doc "2").
Proof.
  apply (C2_dependent_union C2_doc "2").
  by_compute.
Defined.

(** ** C3: value-set conservation *)

(** C3 as stated fails: a record with the value tokens "1,2" and the single
    name "A" loses its "2". *)
Lemma C3_counterexample : ¬ spec_value_conservation C3_doc.
Proof.
  intros (out & Hout & Heq).
  rewrite generate_Ok in Hout.
  - injection Hout as <-.
    assert ("2" ∈ doc_values C3_doc) as Hin by by_compute.
    rewrite <-Heq in Hin. revert Hin. by_compute.
  - by_compute.
Qed.

(** C3, amended.  Where every <dependent> carries an [id], so that an output
    is produced: no value token is invented (the value tokens of the output
    are value tokens of the input), and where no <option> has more value
    tokens than name tokens the two sets of value tokens are equal. *)
Theorem C3_value_set_conservation (root : document) :
  ids_present root →
  ∃ out,
    generate_clean_xml_from_root root = Ok out
    ∧ doc_values out ⊆ doc_values root
    ∧ (names_cover_values root → doc_values out = doc_values root).
Proof.
  intros Hids. exists (canonical root). split_and!.
  - by apply generate_Ok.
  - apply canonical_values_sub.
  - apply canonical_values_eq.
Qed.

Lemma C3_value_set_conservation_witness :
  ∃ out,
    generate_clean_xml_from_root C3_doc = Ok out
    ∧ doc_values out ⊆ doc_values C3_doc
    ∧ (names_cover_values C3_doc → doc_values out = doc_values C3_doc).
Proof.
  apply (C3_value_set_conservation C3_doc). by_compute.
Defined.

(** ** C5: completion without error *)

(** C5 fails on a <dependent> without [id] under an <option> that has a
    name token: [d.get("id")] is [None], it enters the dependent set of the
    group, and the serialisation of the new tree raises [TypeError]. *)
Theorem C5_missing_id_raises :
  generate_clean_xml_from_root C5_doc = Raise TypeError
  ∧ mapping_report C5_doc = Raise TypeError.
Proof.
  assert (generate_clean_xml_from_root C5_doc = Raise TypeError) as H.
  { eapply (generate_Raise C5_doc _ (Dependent None (Some "X")));
      [by left|by_compute|by left|done]. }
  split; [done|]. unfold mapping_report. by rewrite H.
Qed.

(** ** C10: records with names and no value *)



(** ** C4: idempotence on canonical documents *)

(** C4 as stated fails: one <option> with the name "A", the values "1,2"
    and one dependent has unique lists and nothing to merge, yet its second
    value is not flattened and the output value set is {1}. *)
Lemma C4_counterexample : ¬ spec_idempotence C4_doc.
Proof.
  intros H. destruct H as (out & Hout & _ & Hsame); [by_compute|].
  rewrite generate_Ok in Hout by by_compute. injection Hout as <-.
  assert (root_options (canonical C4_doc) !! 0%nat
          = Some (OptionEl (Some "A") (Some "1")
                    [Dependent (Some "d1") (Some "X")])) as Hout by by vm_compute.
  assert (root_options C4_doc !! 0%nat
          = Some (OptionEl (Some "A") (Some "1,2")
                    [Dependent (Some "d1") (Some "X")])) as Hin by done.
  destruct (Forall2_lookup_lr _ _ _ _ _ _ Hsame Hin Hout) as [_ Hv].
  assert ("2" ∈ value_set_of (OptionEl (Some "A") (Some "1,2")
                                [Dependent (Some "d1") (Some "X")])) as H2
    by by_compute.
  rewrite <-Hv in H2. revert H2. by_compute.
Qed.

(** An <option> without a name token yields no group: the number of groups
    drops from two to one. *)
Lemma idempotence_needs_names : ¬ spec_idempotence C4_unnamed_doc.
Proof.
  intros H. destruct H as (out & Hout & Hlen & _); [by_compute|].
  rewrite generate_Ok in Hout by by_compute. injection Hout as <-.
  revert Hlen. by vm_compute.
Qed.

(** C4, amended.  For a document that is already canonical (no duplicates in
    any name list or value list, distinct dependent sets for distinct
    options, dependent sets merge-minimal), in which moreover every option
    has a name token and no more value tokens than name tokens, and whose
    dependents carry an [id]: the output has the same number of groups and,
    group by group in document order, the same name set and the same value
    set. *)
Theorem C4_idempotence (root : document) :
  already_canonical root →
  all_named root →
  names_cover_values root →
  ids_present root →
  ∃ out, generate_clean_xml_from_root root = Ok out ∧ same_groups root out.
Proof.
  intros (_ & Hdistinct & Hminimal) Hnamed Hcover Hids.
  exists (canonical root). split.
  - by apply generate_Ok.
  - by apply minimal_same_groups.
Qed.

Lemma C4_idempotence_witness :
  ∃ out, generate_clean_xml_from_root C4_canonical_doc = Ok out
         ∧ same_groups C4_canonical_doc out.
Proof.
  apply (C4_idempotence C4_canonical_doc); by_compute.
Defined.

(** ** C7: Group Status *)

(** C7.  Whatever the two documents of the export pass are: every row is the
    row of a value of a cleaned group, every value of every cleaned group
    has its row, and the Group Status of that row is "Non-modified" exactly
    when the value set of the group is among the raw value sets of the
    original records the value belonged to, "Modified" otherwise, in
    particular when no original group set is recorded for the value. *)
Theorem C7_group_status (root_original root_clean : document) :
  (∀ r, r ∈ export_rows root_original root_clean →
     ∃ cg, cg ∈ cleaned_groups_of root_clean
           ∧ value_id r ∈ cg_values cg
           ∧ final_group_name r = Str.join (cg_names cg)
           ∧ status_correct root_original cg r)
  ∧ (∀ cg v, cg ∈ cleaned_groups_of root_clean → v ∈ cg_values cg →
       ∃ r, r ∈ export_rows root_original root_clean
            ∧ value_id r = v
            ∧ final_group_name r = Str.join (cg_names cg)
            ∧ status_correct root_original cg r).
Proof.
  split.
  - intros r (i & cg & gid & v & Hi & ->)%elem_of_export_rows.
    apply list_elem_of_lookup_2, elem_of_report_entries in Hi as [Hp Hv].
    exists cg. split_and!; [|done|done|apply make_row_status].
    apply list_elem_of_lookup in Hp as [j Hj].
    apply lookup_zip_Some in Hj as [Hj _]. by eapply list_elem_of_lookup_2.
  - intros cg v Hcg Hv.
    destruct (zip_assignments_cover root_original root_clean cg Hcg) as [gid Hgid].
    assert ((cg, gid, v) ∈ report_entries
              (zip (cleaned_groups_of root_clean)
                   (final_group_assignments
                      (hybrid_numbering (index_original root_original)
                         (cleaned_groups_of root_clean))))) as [i Hi]%list_elem_of_lookup
      by by apply elem_of_report_entries.
    eexists. split_and!; [apply elem_of_export_rows; eauto 6|done|done|].
    apply make_row_status.
Qed.

(** ** C8: report completeness *)

(** C8.  When the canonical document [root_clean] has been produced, the
    rows of the export pass are the values of the cleaned groups, group after
    group and in the order of each group's value list; no value occurs
    twice, so the number of rows is the number of distinct values of the
    canonical groups; and the Sr No column reads 1, 2, ..., N. *)
Theorem C8_report_completeness (root root_clean : document) :
  generate_clean_xml_from_root root = Ok root_clean →
  value_id <$> export_rows root root_clean = cleaned_groups_of root_clean ≫= cg_values
  ∧ NoDup (value_id <$> export_rows root root_clean)
  ∧ length (export_rows root root_clean) = size (doc_values root_clean)
  ∧ sr_no <$> export_rows root root_clean
    = seq 1 (length (export_rows root root_clean)).
Proof.
  intros ->%generate_inv.
  pose proof (export_rows_values root (canonical root)) as Hvals.
  pose proof (NoDup_canonical_values root) as Hnd.
  rewrite <-cleaned_values, <-Hvals in Hnd.
  split_and!; [done|done| |apply export_rows_serials].
  rewrite doc_values_list, <-cleaned_values, <-Hvals.
  rewrite size_list_to_set by done. by rewrite length_fmap.
Qed.

Lemma C8_report_completeness_witness :
  value_id <$> export_rows C1_doc (canonical C1_doc)
  = cleaned_groups_of (canonical C1_doc) ≫= cg_values
  ∧ NoDup (value_id <$> export_rows C1_doc (canonical C1_doc))
  ∧ length (export_rows C1_doc (canonical C1_doc)) = size (doc_values (canonical C1_doc))
  ∧ sr_no <$> export_rows C1_doc (canonical C1_doc)
    = seq 1 (length (export_rows C1_doc (canonical C1_doc))).
Proof.
  apply (C8_report_completeness C1_doc (canonical C1_doc)). by vm_compute.
Defined.

(** ** C6: hybrid numbering *)

(** C6.  The original records are numbered G1..Gn in document order.  A
    canonical group whose value set is the raw value set of an original
    record gets the identifier of the first such record; any other gets
    G(n+1+k), where k is the rank of its value set among the distinct value
    sets of that kind in the order of their first occurrence: fresh
    identifiers run from G(n+1) on, and equal value sets get the same one. *)
Theorem C6_hybrid_numbering (root_original root_clean : document) :
  og_id <$> original_groups (index_original root_original)
  = gid_of <$> seq 1 (length (root_options root_original))
  ∧ final_group_assignments
      (hybrid_numbering (index_original root_original) (cleaned_groups_of root_clean))
    = spec_final_ids (raw_set <$> root_options root_original)
                     (cg_values_set <$> cleaned_groups_of root_clean).
Proof.
  destruct (index_original_spec root_original) as (Hcount & Hids & Hmap).
  split; [done|].
  unfold hybrid_numbering, spec_final_ids. rewrite Hcount.
  destruct (numbering_spec (raw_set <$> root_options root_original) _ Hmap
              (cleaned_groups_of root_clean)) as (_ & Hassign & _).
  rewrite length_fmap in Hassign. apply Hassign.
Qed.

(** Reuse of original identifiers, fresh identifiers from G4 on, and the same
    fresh identifier for a repeated value set. *)
Example hybrid_numbering_example :
  final_group_assignments
    (hybrid_numbering (index_original C6_original) (cleaned_groups_of C6_clean))
  = ["G2"; "G4"; "G5"; "G4"; "G1"].
Proof. by vm_compute. Qed.

(** Three values merged into a new group are "Modified", the untouched group
    is "Non-modified". *)
Example group_status_example :
  (λ r, (value_id r, final_group_id r, group_status r)) <$> export_rows C7_doc (canonical C7_doc)
  = [("1", "G4", "Modified"); ("2", "G4", "Modified"); ("3", "G4", "Modified");
     ("4", "G3", "Non-modified")].
Proof. by vm_compute. Qed.

(** ** Worked examples *)

(** Values 1 and 2 share the dependent set {d1}: one <option> "A,B,C" with
    the values "1,2" and the single dependent d1. *)
Example merge_example :
  generate_clean_xml_from_root C1_doc
  = Ok (Document []
          [OptionEl (Some "A,B,C") (Some "1,2") [Dependent (Some "d1") (Some "X")]]).
Proof. by vm_compute. Qed.

(** Names "A,B" with the single value "9": both names are paired with it. *)
Example value_reuse_example :
  (λ it, (fi_name it, fi_value it)) <$> flat (flatten spec_example_doc)
  = [("A", "9"); ("B", "9")].
Proof. by vm_compute. Qed.

(** The tokenizer trims: " 1 " and "1" are the same value. *)
Example tokenizer_example : _split " 1 , 2,, 3 " = ["1"; "2"; "3"].
Proof. by vm_compute. Qed.

(** * Further properties of the program *)

(** ** The tokenizer *)

Module StrEndsFacts.
Import Str StrEnds.

Lemma lstrip_head s c : head_char (lstrip s) = Some c → is_space c = false.
Proof.
  induction s as [|c' s IH]; simpl; [done|].
  destruct (is_space c') eqn:E; [done|]. simpl. by intros [= <-].
Qed.

Lemma rstrip_last s c : last_char (rstrip s) = Some c → is_space c = false.
Proof.
  induction s as [|c' s IH]; simpl; [done|].
  destruct (rstrip s) as [|c'' r] eqn:E.
  - destruct (is_space c') eqn:E'; simpl; [done|]. by intros [= <-].
  - simpl. simpl in IH. done.
Qed.

Lemma last_char_lstrip s c :
  last_char (lstrip s) = Some c → last_char s = Some c.
Proof.
  induction s as [|c' s IH]; simpl; [done|].
  destruct (is_space c'); [|done]. intros H. specialize (IH H).
  destruct s; [done|done].
Qed.

Lemma strip_head s c : head_char (strip s) = Some c → is_space c = false.
Proof. apply lstrip_head. Qed.

Lemma strip_last s c : last_char (strip s) = Some c → is_space c = false.
Proof. intros H%last_char_lstrip. by eapply rstrip_last. Qed.

Lemma append_cons c (a b : string) : String c a +:+ b = String c (a +:+ b).
Proof. done. Qed.

Lemma append_assoc (a b c : string) : (a +:+ b) +:+ c = a +:+ (b +:+ c).
Proof.
  induction a as [|x a IH]; [done|]. by rewrite !append_cons, IH.
Qed.

(** What [lstrip] and [rstrip] remove is white space, and they remove it
    from the ends only. *)
Lemma lstrip_decompose s : ∃ p, s = p +:+ lstrip s ∧ all_space p = true.
Proof.
  induction s as [|c s (p & Hp & Hsp)]; [by exists ""|]. simpl.
  destruct (is_space c) eqn:E.
  - exists (String c p). split.
    + rewrite append_cons. by f_equal.
    + simpl. by rewrite E.
  - by exists "".
Qed.

Lemma rstrip_decompose s : ∃ q, s = rstrip s +:+ q ∧ all_space q = true.
Proof.
  induction s as [|c s (q & Hq & Hsq)]; [by exists ""|]. simpl.
  destruct (rstrip s) as [|c' r] eqn:E.
  - destruct (is_space c) eqn:Ec.
    + exists (String c q). split; [|simpl; by rewrite Ec].
      change ("" +:+ String c q) with (String c q). f_equal.
      by rewrite Hq at 1.
    + exists q. split; [|done]. rewrite append_cons. f_equal. by rewrite Hq at 1.
  - exists q. split; [|done]. rewrite append_cons. by f_equal.
Qed.

Lemma strip_decompose s :
  ∃ p q, s = p +:+ strip s +:+ q ∧ all_space p = true ∧ all_space q = true.
Proof.
  destruct (rstrip_decompose s) as (q & Hq & Hsq).
  destruct (lstrip_decompose (rstrip s)) as (p & Hp & Hsp).
  exists p, q. split_and!; [|done..].
  unfold strip. rewrite <-append_assoc, <-Hp. done.
Qed.

(** [",".join(s.split(","))] is [s]. *)
Lemma join_split s : join (split s) = s.
Proof.
  induction s as [|c s IH]; [done|]. simpl. case_decide as Hc.
  - subst c. pose proof (StrFacts.split_ne_nil s) as Hne.
    destruct (split s) as [|h t] eqn:E; [done|].
    change (join ("" :: h :: t)) with ("" +:+ String comma (join (h :: t))).
    simpl. by rewrite IH.
  - pose proof (StrFacts.split_ne_nil s) as Hne.
    destruct (split s) as [|h t] eqn:E; [done|].
    rewrite <-IH. unfold join. simpl. by destruct t.
Qed.

End StrEndsFacts.

Lemma token_clean t : Str.token t → clean_token t.
Proof.
  intros (Hne & Hstrip & Hcomma). split_and!; [done|done| |].
  - intros c Hc. rewrite <-Hstrip in Hc. by eapply StrEndsFacts.strip_head.
  - intros c Hc. rewrite <-Hstrip in Hc. by eapply StrEndsFacts.strip_last.
Qed.

(** X1.  [_split_field] and [_split] return the same tokens; the comma
    separated pieces of the text join back to the text; every token is one
    of these pieces with white space (and only white space) taken off its
    two ends, and it is not empty, holds no comma and neither starts nor
    ends with white space. *)
Theorem tokenizer_tokens (text : string) :
  _split_field text = _split text
  ∧ Str.join (Str.split text) = text
  ∧ Forall (λ t, clean_token t
                 ∧ ∃ piece p q, piece ∈ Str.split text
                                ∧ piece = p +:+ t +:+ q
                                ∧ StrEnds.all_space p = true
                                ∧ StrEnds.all_space q = true)
           (_split_field text).
Proof.
  split_and!; [apply _split_field_split|apply StrEndsFacts.join_split|].
  rewrite _split_field_split. apply Forall_forall. intros t Ht. split.
  - apply token_clean. by apply (proj1 (Forall_forall _ _) (_split_tokens text)).
  - unfold _split in Ht. case_decide; [|by apply elem_of_nil in Ht].
    apply list_elem_of_filter in Ht as [_ (piece & -> & Hp)%list_elem_of_fmap].
    destruct (StrEndsFacts.strip_decompose piece) as (p & q & Hpq & Hsp & Hsq).
    by exists piece, p, q.
Qed.

(** X2.  Tokenizing the comma-join of a list of tokens and empty strings
    gives the tokens back, in order, and drops the empty strings: this is
    how the export pass reads the attributes the function wrote. *)
Theorem tokenizer_join_roundtrip (l : list string) :
  joinable l →
  _split_field (Str.join l) = filter (λ t, t ≠ "") l.
Proof. intros Hl. rewrite _split_field_split. by apply _split_join. Qed.

Lemma tokenizer_join_roundtrip_witness :
  _split_field (Str.join [""; "a b"; ""; "c"]) = filter (λ t, t ≠ "") [""; "a b"; ""; "c"].
Proof.
  apply (tokenizer_join_roundtrip [""; "a b"; ""; "c"]). by_compute.
Defined.

(** ** When the function returns *)

Lemma not_ids_present root :
  ¬ ids_present root →
  ∃ opt d, opt ∈ root_options root ∧ names_of opt ≠ []
           ∧ d ∈ opt_dependents opt ∧ dep_id d = None.
Proof.
  intros Hn. unfold ids_present in Hn.
  apply not_Forall_Exists in Hn; [|apply _].
  apply Exists_exists in Hn as (opt & Hopt & Hno). simpl in Hno.
  destruct (decide (names_of opt = [])) as [Hnil|Hne]; [by destruct Hno|].
  assert (¬ Forall (λ d, is_Some (dep_id d)) (opt_dependents opt)) as Hnf by auto.
  apply not_Forall_Exists in Hnf; [|apply _].
  apply Exists_exists in Hnf as (d & Hd & Hnone). simpl in Hnone.
  exists opt, d. split_and!; [done..|].
  destruct (dep_id d); [|done]. destruct Hnone. by eexists.
Qed.

(** X3.  Steps 1 to 3 never raise (the [KeyError] of [value_to_deps[val]]
    cannot happen).  The function returns exactly when every <dependent> of
    an <option> that has a name token carries an [id]; otherwise the
    serialisation raises [TypeError], and then no report is made. *)
Theorem generate_returns_iff_ids (root : document) :
  (∃ merged, merged_groups root = Ok merged
             ∧ canonical root
               = Document (root_attrib root)
                          (output_option (dep_id_to_name (flatten root)) <$> merged))
  ∧ generate_clean_xml_from_root root
    = (if decide (ids_present root) then Ok (canonical root) else Raise TypeError)
  ∧ mapping_report root
    = (if decide (ids_present root) then Ok (export_rows root (canonical root))
       else Raise TypeError).
Proof.
  assert (generate_clean_xml_from_root root
          = (if decide (ids_present root) then Ok (canonical root) else Raise TypeError))
    as Hgen.
  { case_decide as Hids; [by apply generate_Ok|].
    destruct (not_ids_present root Hids) as (opt & d & ? & ? & ? & ?).
    by eapply generate_Raise. }
  split_and!.
  - eexists. split; [apply merged_groups_Ok|done].
  - done.
  - unfold mapping_report. rewrite Hgen. by case_decide.
Qed.

(** ** The merged groups *)

Lemma groups_nonempty fl g :
  g ∈ groups_of fl → g_names g ≠ [] ∧ g_values g ≠ [].
Proof.
  intros (it & Hit & ->)%elem_of_groups_of.
  assert (fi_name it ∈ g_names (group_for (unify fl) (unified_key fl it) fl)) as Hn.
  { apply elem_of_group_names. exists it. split_and!; [done..|].
    by rewrite unified_key_item. }
  assert (fi_value it ∈ g_values (group_for (unify fl) (unified_key fl it) fl)) as Hv.
  { apply elem_of_group_values. exists it. split_and!; [done..|].
    by rewrite unified_key_item. }
  split; intros Hnil.
  - rewrite Hnil in Hn. by apply elem_of_nil in Hn.
  - rewrite Hnil in Hv. by apply elem_of_nil in Hv.
Qed.

(** X4.  The merged list has one group per dependent set (no two groups
    share their key); in every group the names are pairwise distinct, the
    values are pairwise distinct, and neither list is empty. *)
Theorem merged_groups_well_formed (root : document) :
  ∃ merged,
    merged_groups root = Ok merged
    ∧ NoDup (g_deps <$> merged)
    ∧ Forall (λ g, NoDup (g_names g) ∧ NoDup (g_values g)
                   ∧ g_names g ≠ [] ∧ g_values g ≠ []) merged.
Proof.
  exists (groups_of (flat (flatten root))). split_and!.
  - apply merged_groups_Ok.
  - apply NoDup_groups_deps.
  - apply Forall_forall. intros g Hg.
    destruct (groups_nonempty _ g Hg) as [Hn Hv].
    apply elem_of_groups_of in Hg as (it & _ & ->).
    split_and!; [apply NoDup_uniq|apply NoDup_uniq|done|done].
Qed.

Section uniq_order.
Context `{EqDecision A}.
Implicit Types (x y : A) (l : list A).

Lemma first_index_lt x l j : first_index x l = Some j → (j < length l)%nat.
Proof. intros [H _]%first_index_Some. by eapply lookup_lt_Some. Qed.

Lemma first_index_snoc_old x l y :
  x ∈ l → first_index x (l ++ [y]) = first_index x l.
Proof.
  intros [j Hj]%first_index_is_Some. by rewrite first_index_snoc, Hj.
Qed.

(** [uniq] lists the elements in the order of their first occurrence. *)
Lemma uniq_order l i j x y :
  uniq l !! i = Some x → uniq l !! j = Some y → (i < j)%nat →
  ∃ p q, first_index x l = Some p ∧ first_index y l = Some q ∧ (p < q)%nat.
Proof.
  revert i j x y. induction l as [|z l IH] using rev_ind; intros i j x y; [done|].
  rewrite uniq_snoc. unfold push_unique. case_decide as Hz.
  - intros Hi Hj Hlt. destruct (IH i j x y Hi Hj Hlt) as (p & q & Hp & Hq & Hpq).
    exists p, q. rewrite !first_index_snoc, Hp, Hq. done.
  - intros Hi Hj Hlt. rewrite elem_of_uniq in Hz.
    destruct (decide (j < length (uniq l))%nat) as [Hjl|Hjl].
    + rewrite lookup_app_l in Hi by lia. rewrite lookup_app_l in Hj by lia.
      destruct (IH i j x y Hi Hj Hlt) as (p & q & Hp & Hq & Hpq).
      exists p, q. rewrite !first_index_snoc, Hp, Hq. done.
    + pose proof (lookup_lt_Some _ _ _ Hj) as Hjlen.
      rewrite length_app in Hjlen. simpl in Hjlen.
      assert (j = length (uniq l)) as -> by lia.
      rewrite lookup_app_l in Hi by lia.
      rewrite list_lookup_middle in Hj by done. injection Hj as <-.
      assert (x ∈ l) as Hx by (apply elem_of_uniq; by eapply list_elem_of_lookup_2).
      destruct (first_index_is_Some x l Hx) as [p Hp].
      exists p, (length l). rewrite !first_index_snoc, Hp.
      apply first_index_None in Hz. rewrite Hz, decide_True by done.
      split_and!; [done..|]. by eapply first_index_lt.
Qed.
End uniq_order.

(** X5.  Nothing is sorted.  The groups come in the order in which their
    dependent sets are first met among the flat items, and inside a group
    the names, and the values, come in the order in which they are first met
    among the items of that group. *)
Theorem merged_groups_first_seen_order (root : document) :
  let fl := flat (flatten root) in
  ∃ merged,
    merged_groups root = Ok merged
    ∧ (∀ i j gi gj, merged !! i = Some gi → merged !! j = Some gj → (i < j)%nat →
         ∃ p q, first_index (g_deps gi) (unified_key fl <$> fl) = Some p
                ∧ first_index (g_deps gj) (unified_key fl <$> fl) = Some q
                ∧ (p < q)%nat)
    ∧ (∀ g i j n1 n2, g ∈ merged →
         g_names g !! i = Some n1 → g_names g !! j = Some n2 → (i < j)%nat →
         ∃ p q, first_index n1 (fi_name <$> items_of_key fl (g_deps g)) = Some p
                ∧ first_index n2 (fi_name <$> items_of_key fl (g_deps g)) = Some q
                ∧ (p < q)%nat)
    ∧ (∀ g i j v1 v2, g ∈ merged →
         g_values g !! i = Some v1 → g_values g !! j = Some v2 → (i < j)%nat →
         ∃ p q, first_index v1 (fi_value <$> items_of_key fl (g_deps g)) = Some p
                ∧ first_index v2 (fi_value <$> items_of_key fl (g_deps g)) = Some q
                ∧ (p < q)%nat).
Proof.
  intros fl. exists (groups_of fl). split_and!.
  - apply merged_groups_Ok.
  - intros i j gi gj Hi Hj Hlt.
    destruct (groups_of_lookup _ _ _ Hi) as (ki & Hki & ->).
    destruct (groups_of_lookup _ _ _ Hj) as (kj & Hkj & ->).
    by apply (uniq_order _ i j).
  - intros g i j n1 n2 (it & _ & ->)%elem_of_groups_of Hi Hj Hlt.
    by apply (uniq_order _ i j).
  - intros g i j v1 v2 (it & _ & ->)%elem_of_groups_of Hi Hj Hlt.
    by apply (uniq_order _ i j).
Qed.

(** ** The output document *)

#[local] Instance str_key_le_total : Total str_key_le.
Proof. intros a b. unfold str_key_le. apply (total String.le). Qed.

Lemma sorted_deps_NoDup s : NoDup (sorted_deps s).
Proof.
  unfold sorted_deps. rewrite merge_sort_Permutation. apply NoDup_elements.
Qed.

Lemma sorted_deps_Sorted s : Sorted str_key_le (sorted_deps s).
Proof. unfold sorted_deps. apply (Sorted_merge_sort str_key_le). Qed.

Lemma output_dep_ids m g : dep_ids_of (output_option m g) = sorted_deps (g_deps g).
Proof.
  unfold dep_ids_of, output_option. simpl. rewrite <-list_fmap_compose.
  rewrite <-(list_fmap_id (sorted_deps (g_deps g))) at 2. by apply list_fmap_ext.
Qed.

Lemma output_option_deps m g : option_deps (output_option m g) = g_deps g.
Proof.
  unfold option_deps. rewrite output_dep_ids. apply set_eq. intros d.
  by rewrite elem_of_list_to_set, elem_of_sorted_deps.
Qed.

Lemma output_names_of root m g :
  g ∈ groups_of (flat (flatten root)) → names_of (output_option m g) = g_names g.
Proof.
  intros Hg. unfold names_of, output_option. simpl.
  rewrite <-_split_field_split. by apply (output_names root).
Qed.

Lemma output_values_of root m g :
  g ∈ groups_of (flat (flatten root)) →
  values_of (output_option m g) = filter (λ t, t ≠ "") (g_values g).
Proof.
  intros Hg. unfold values_of, output_option. simpl.
  rewrite <-_split_field_split. by apply (output_values root).
Qed.

Lemma group_unique_by_value fl g1 g2 v :
  g1 ∈ groups_of fl → g2 ∈ groups_of fl →
  v ∈ g_values g1 → v ∈ g_values g2 → g1 = g2.
Proof.
  intros [i1 Hi1]%list_elem_of_lookup [i2 Hi2]%list_elem_of_lookup Hv1 Hv2.
  assert (v ∈ fi_value <$> fl) as Hv.
  { destruct (groups_of_lookup _ _ _ Hi1) as (k & _ & ->).
    apply elem_of_group_values in Hv1 as (it & Hit & <- & _).
    by apply list_elem_of_fmap_2. }
  destruct (group_of_value fl v Hv) as (i & _ & _ & Huniq).
  rewrite (Huniq i1 g1 Hi1 Hv1) in Hi1. rewrite (Huniq i2 g2 Hi2 Hv2) in Hi2.
  congruence.
Qed.

Lemma output_paired_in_group root m g v :
  g ∈ groups_of (flat (flatten root)) →
  v ∈ paired_values (output_option m g) → v ∈ g_values g.
Proof.
  intros Hg Hv. destruct (decide (v = "")) as [->|Hne].
  - apply paired_empty in Hv as [_ Hnil].
    rewrite (output_values_of root m g Hg) in Hnil.
    destruct (groups_nonempty _ g Hg) as [_ Hvals].
    destruct (g_values g) as [|x xs]; [done|].
    destruct (decide (x = "")) as [->|Hx]; [by left|].
    by rewrite filter_cons_True in Hnil by done.
  - apply paired_values_sub in Hv as [?|Hv]; [done|].
    rewrite (output_values_of root m g Hg) in Hv.
    by apply list_elem_of_filter in Hv as [_ ?].
Qed.

Lemma canonical_unique_lists root : unique_lists (canonical root).
Proof.
  apply Forall_fmap, Forall_forall. intros g Hg. simpl.
  rewrite (output_names_of root _ g Hg), (output_values_of root _ g Hg).
  apply elem_of_groups_of in Hg as (it & _ & ->).
  split; [apply NoDup_uniq|apply NoDup_filter, NoDup_uniq].
Qed.

Lemma canonical_distinct_deps root : distinct_deps (canonical root).
Proof.
  unfold distinct_deps, canonical. simpl. rewrite <-list_fmap_compose.
  assert (option_deps ∘ output_option (dep_id_to_name (flatten root))
            <$> groups_of (flat (flatten root))
          = g_deps <$> groups_of (flat (flatten root))) as ->.
  { apply list_fmap_ext. intros _ g _. apply output_option_deps. }
  apply NoDup_groups_deps.
Qed.

Lemma canonical_merge_minimal root : merge_minimal (canonical root).
Proof.
  apply Forall_fmap, Forall_forall. intros g Hg. simpl.
  apply Forall_forall. intros v Hv. rewrite output_option_deps.
  apply set_eq. intros d. rewrite elem_of_pairing_deps. split.
  - intros (o & (g' & -> & Hg')%list_elem_of_fmap & Hv' & Hd).
    rewrite output_option_deps in Hd.
    apply (output_paired_in_group root) in Hv; [|done].
    apply (output_paired_in_group root) in Hv'; [|done].
    by rewrite (group_unique_by_value _ g g' v Hg Hg' Hv Hv').
  - intros Hd. exists (output_option (dep_id_to_name (flatten root)) g).
    split_and!; [by apply list_elem_of_fmap_2|done|by rewrite output_option_deps].
Qed.

Lemma canonical_all_named root : all_named (canonical root).
Proof.
  apply Forall_fmap, Forall_forall. intros g Hg. simpl.
  rewrite (output_names_of root _ g Hg). by apply groups_nonempty in Hg as [? _].
Qed.

Lemma canonical_ids_present root : ids_present root → ids_present (canonical root).
Proof.
  intros Hids. apply Forall_fmap, Forall_forall. intros g Hg. simpl. intros _.
  apply Forall_fmap, Forall_forall. intros d Hd%elem_of_sorted_deps. simpl.
  destruct (group_deps_from_items _ g d Hg Hd) as (it & Hit & Hdit).
  apply elem_of_flat in Hit as (opt & Hopt & Hit).
  rewrite (flat_items_deps opt it Hit) in Hdit.
  apply elem_of_option_deps in Hdit as (x & Hx & ->).
  eapply ids_present_elim; [done..| |done]. by eapply flat_items_nonempty.
Qed.

(** X6.  The output is already canonical: in each of its <option> records
    the name tokens are pairwise distinct and there is at least one; no value
    token occurs twice in the whole document; distinct records have distinct
    dependent sets, and these are merge-minimal; and the <dependent>
    children of a record are pairwise distinct and sorted by [str(id)]. *)
Theorem output_already_canonical (root : document) :
  ids_present root →
  ∃ out,
    generate_clean_xml_from_root root = Ok out
    ∧ already_canonical out
    ∧ all_named out
    ∧ NoDup (root_options out ≫= raw_values)
    ∧ Forall (λ o, NoDup (dep_ids_of o) ∧ Sorted str_key_le (dep_ids_of o))
             (root_options out).
Proof.
  intros Hids. exists (canonical root). split_and!.
  - by apply generate_Ok.
  - split_and!; [apply canonical_unique_lists|apply canonical_distinct_deps
                 |apply canonical_merge_minimal].
  - apply canonical_all_named.
  - apply NoDup_canonical_values.
  - apply Forall_fmap, Forall_forall. intros g _. simpl. rewrite output_dep_ids.
    split; [apply sorted_deps_NoDup|apply sorted_deps_Sorted].
Qed.

Lemma output_already_canonical_witness :
  ∃ out,
    generate_clean_xml_from_root C7_doc = Ok out
    ∧ already_canonical out
    ∧ all_named out
    ∧ NoDup (root_options out ≫= raw_values)
    ∧ Forall (λ o, NoDup (dep_ids_of o) ∧ Sorted str_key_le (dep_ids_of o))
             (root_options out).
Proof. apply (output_already_canonical C7_doc). by_compute. Defined.

Lemma generate_Ok_ids root out :
  generate_clean_xml_from_root root = Ok out → ids_present root ∧ out = canonical root.
Proof.
  intros Hout. split; [|by apply generate_inv].
  destruct (decide (ids_present root)) as [|Hn]; [done|].
  destruct (not_ids_present root Hn) as (opt & d & Hopt & Hne & Hd & Hnone).
  by rewrite (generate_Raise root opt d Hopt Hne Hd Hnone) in Hout.
Qed.

(** X7.  Running the function on its own output [out]: where no <option>
    of [out] has more value tokens than name tokens, the second run returns
    a document with the same number of groups and, group by group, the same
    name set and the same value set. *)
Theorem generate_twice (root out : document) :
  generate_clean_xml_from_root root = Ok out →
  names_cover_values out →
  ∃ out2,
    generate_clean_xml_from_root out = Ok out2
    ∧ same_groups out out2.
Proof.
  intros [Hids ->]%generate_Ok_ids Hcover. exists (canonical (canonical root)).
  split.
  - by apply generate_Ok, canonical_ids_present.
  - apply minimal_same_groups;
      [apply canonical_distinct_deps|apply canonical_merge_minimal
       |apply canonical_all_named|done].
Qed.

Lemma generate_twice_witness :
  ∃ out2,
    generate_clean_xml_from_root (canonical C7_doc) = Ok out2
    ∧ same_groups (canonical C7_doc) out2.
Proof.
  apply (generate_twice C7_doc (canonical C7_doc)); [by vm_compute|by_compute].
Defined.

(** ** Names and dependents are conserved *)

Lemma elem_of_doc_names d n :
  n ∈ doc_names d ↔
  ∃ opt, opt ∈ root_options d ∧ n ∈ _split_field (default "" (opt_name opt)).
Proof.
  unfold doc_names. rewrite elem_of_union_list. split.
  - intros (X & (opt & -> & Hopt)%list_elem_of_fmap & Hn).
    apply elem_of_list_to_set in Hn. eauto.
  - intros (opt & Hopt & Hn). exists (name_set opt). split.
    + by apply list_elem_of_fmap_2.
    + by apply elem_of_list_to_set.
Qed.

Lemma canonical_names root : doc_names (canonical root) = doc_names root.
Proof.
  apply set_eq. intros n. rewrite !elem_of_doc_names. split.
  - intros (o & (g & -> & Hg)%list_elem_of_fmap & Hn). simpl in Hn.
    rewrite (output_names root g Hg) in Hn.
    destruct (group_names_named root g n Hg Hn) as (opt & Hopt & Hin).
    exists opt. split; [done|]. by rewrite _split_field_split.
  - intros (opt & Hopt & Hn). rewrite _split_field_split in Hn.
    change (n ∈ names_of opt) in Hn. rewrite <-flat_items_names in Hn.
    apply list_elem_of_fmap in Hn as (it & -> & Hit).
    assert (it ∈ flat (flatten root)) as Hfl by (apply elem_of_flat; eauto).
    set (g := group_for (unify (flat (flatten root)))
                (unified_key (flat (flatten root)) it) (flat (flatten root))).
    assert (g ∈ groups_of (flat (flatten root))) as Hg
      by (apply elem_of_groups_of; eauto).
    exists (output_option (dep_id_to_name (flatten root)) g). split.
    + by apply list_elem_of_fmap_2.
    + change (fi_name it ∈ _split_field (Str.join (g_names g))).
      rewrite (output_names root g Hg). apply elem_of_group_names.
      exists it. split_and!; [done..|]. by rewrite unified_key_item.
Qed.

Lemma canonical_dep_ids root :
  ⋃ (option_deps <$> root_options (canonical root))
  = ⋃ (option_deps <$> filter (λ opt, names_of opt ≠ []) (root_options root)).
Proof.
  apply set_eq. intros d. rewrite !elem_of_union_list. split.
  - intros (X & (o & -> & (g & -> & Hg)%list_elem_of_fmap)%list_elem_of_fmap & Hd).
    rewrite output_option_deps in Hd.
    destruct (group_deps_from_items _ g d Hg Hd) as (it & Hit & Hdit).
    apply elem_of_flat in Hit as (opt & Hopt & Hit).
    rewrite (flat_items_deps opt it Hit) in Hdit.
    exists (option_deps opt). split; [|done]. apply list_elem_of_fmap_2.
    apply list_elem_of_filter. split; [by eapply flat_items_nonempty|done].
  - intros (X & (opt & -> & [Hne Hopt]%list_elem_of_filter)%list_elem_of_fmap & Hd).
    destruct (names_of opt) as [|n ns] eqn:Hn; [done|].
    set (it := FlatItem n (pair_value (values_of opt) 0) (list_to_set (dep_ids_of opt))).
    assert (it ∈ flat_items opt) as Hit.
    { apply elem_of_flat_items. exists 0%nat. by rewrite Hn. }
    assert (it ∈ flat (flatten root)) as Hfl by (apply elem_of_flat; eauto).
    destruct (item_deps_in_groups (flat (flatten root)) it d Hfl Hd)
      as (g & Hg & Hdg).
    exists (option_deps (output_option (dep_id_to_name (flatten root)) g)). split.
    + apply list_elem_of_fmap_2. simpl. by apply list_elem_of_fmap_2.
    + by rewrite output_option_deps.
Qed.

(** X8.  No name is lost and none is invented: the name tokens of the
    output are those of the input.  The same holds for the dependent
    identifiers of the <option> records that have a name token (the
    dependents of a record without name tokens are dropped with it). *)
Theorem names_and_dependents_conserved (root : document) :
  ids_present root →
  ∃ out,
    generate_clean_xml_from_root root = Ok out
    ∧ doc_names out = doc_names root
    ∧ ⋃ (option_deps <$> root_options out)
      = ⋃ (option_deps <$> filter (λ opt, names_of opt ≠ []) (root_options root)).
Proof.
  intros Hids. exists (canonical root). split_and!.
  - by apply generate_Ok.
  - apply canonical_names.
  - apply canonical_dep_ids.
Qed.

Lemma names_and_dependents_conserved_witness :
  ∃ out,
    generate_clean_xml_from_root C10_doc = Ok out
    ∧ doc_names out = doc_names C10_doc
    ∧ ⋃ (option_deps <$> root_options out)
      = ⋃ (option_deps <$> filter (λ opt, names_of opt ≠ []) (root_options C10_doc)).
Proof. apply (names_and_dependents_conserved C10_doc). by_compute. Defined.

(** ** The names of the dependents *)

Lemma flatten_name_dep_names values dep_ids st ps :
  dep_id_to_name (foldl (flatten_name values dep_ids) st ps) = dep_id_to_name st.
Proof.
  revert st. induction ps as [|[idx name] ps IH]; intros st; [done|].
  simpl. by rewrite IH.
Qed.

Lemma flatten_options_dep_names st opts :
  dep_id_to_name (foldl flatten_option st opts)
  = foldl note_dependent (dep_id_to_name st) (opts ≫= opt_dependents).
Proof.
  revert st. induction opts as [|opt opts IH]; intros st; [done|].
  simpl. rewrite IH, foldl_app. f_equal.
  unfold flatten_option. by rewrite flatten_name_dep_names.
Qed.

Lemma first_dependent_cons d ds i :
  first_dependent (d :: ds) i
  = if decide (dep_id d = i) then Some d else first_dependent ds i.
Proof.
  unfold first_dependent. case_decide.
  - by rewrite filter_cons_True.
  - by rewrite filter_cons_False.
Qed.

Lemma note_dependents_lookup m ds i :
  foldl note_dependent m ds !! i
  = match m !! i with
    | Some x => Some x
    | None => (λ d, default "" (dep_name d)) <$> first_dependent ds i
    end.
Proof.
  revert m. induction ds as [|d ds IH]; intros m.
  - simpl. by destruct (m !! i).
  - simpl. rewrite IH, first_dependent_cons. unfold note_dependent.
    destruct (m !! dep_id d) as [x|] eqn:Hd.
    + destruct (m !! i) eqn:Hi; [done|]. case_decide as Heq; [|done].
      subst. congruence.
    + destruct (decide (dep_id d = i)) as [<-|Hne].
      * by rewrite lookup_insert_eq, Hd.
      * rewrite lookup_insert_ne by done. by destruct (m !! i).
Qed.

Lemma dep_id_to_name_first root i :
  dep_id_to_name (flatten root) !! i
  = (λ d, default "" (dep_name d)) <$> first_dependent (all_dependents root) i.
Proof.
  unfold flatten. rewrite flatten_options_dep_names, note_dependents_lookup.
  cbn [dep_id_to_name]. by rewrite lookup_empty.
Qed.

Lemma first_dependent_is_Some ds d :
  d ∈ ds → is_Some (first_dependent ds (dep_id d)).
Proof.
  intros Hd. unfold first_dependent.
  assert (d ∈ filter (λ d', dep_id d' = dep_id d) ds) as Hin
    by by apply list_elem_of_filter.
  destruct (filter _ ds); [by apply elem_of_nil in Hin|by eexists].
Qed.

(** X9.  The first <dependent> seen with an identifier names it for good:
    every <dependent> of the output carries the name of the first
    <dependent> of the input that has its identifier (the empty string when
    that one has no [name]), also when that first one sits under an <option>
    without name tokens.  The fallback [dep_id_to_name.get(dep_id, "")] is
    never taken. *)
Theorem dependent_names_first_seen (root : document) :
  ids_present root →
  ∃ out,
    generate_clean_xml_from_root root = Ok out
    ∧ Forall (λ o, Forall (λ d, ∃ d0,
                first_dependent (all_dependents root) (dep_id d) = Some d0
                ∧ dep_id_to_name (flatten root) !! dep_id d
                  = Some (default "" (dep_name d0))
                ∧ dep_name d = Some (default "" (dep_name d0)))
                (opt_dependents o))
             (root_options out).
Proof.
  intros Hids. exists (canonical root). split; [by apply generate_Ok|].
  apply Forall_fmap, Forall_forall. intros g Hg. simpl.
  apply Forall_fmap, Forall_forall. intros d Hd%elem_of_sorted_deps. simpl.
  destruct (group_deps_from_items _ g d Hg Hd) as (it & Hit & Hdit).
  apply elem_of_flat in Hit as (opt & Hopt & Hit).
  rewrite (flat_items_deps opt it Hit) in Hdit.
  apply elem_of_option_deps in Hdit as (x & Hx & ->).
  assert (x ∈ all_dependents root) as Hall.
  { unfold all_dependents. apply list_elem_of_bind. eauto. }
  destruct (first_dependent_is_Some _ x Hall) as [d0 Hd0].
  exists d0. rewrite dep_id_to_name_first, Hd0. done.
Qed.

Lemma dependent_names_first_seen_witness :
  ∃ out,
    generate_clean_xml_from_root renamed_dependent_doc = Ok out
    ∧ Forall (λ o, Forall (λ d, ∃ d0,
                first_dependent (all_dependents renamed_dependent_doc) (dep_id d) = Some d0
                ∧ dep_id_to_name (flatten renamed_dependent_doc) !! dep_id d
                  = Some (default "" (dep_name d0))
                ∧ dep_name d = Some (default "" (dep_name d0)))
                (opt_dependents o))
             (root_options out).
Proof. apply (dependent_names_first_seen renamed_dependent_doc). by_compute. Defined.

(** ** Degenerate input *)

(** X10.  A document in which no <option> has a name token (in particular
    one without <option>) gives an output without <option>, with the root
    attributes copied, and a report without rows; a <dependent> without
    [id] does no harm there. *)
Theorem unnamed_options_vanish (root : document) :
  Forall (λ opt, names_of opt = []) (root_options root) →
  generate_clean_xml_from_root root = Ok (Document (root_attrib root) [])
  ∧ mapping_report root = Ok [].
Proof.
  intros Hnil.
  assert (flat (flatten root) = []) as Hflat.
  { rewrite flatten_flat. induction Hnil as [|opt opts Ho _ IH]; [done|].
    rewrite bind_cons, IH, app_nil_r. unfold flat_items. by rewrite Ho. }
  assert (generate_clean_xml_from_root root = Ok (Document (root_attrib root) [])) as Hgen.
  { rewrite generate_Ok.
    - unfold canonical. by rewrite Hflat.
    - eapply Forall_impl; [exact Hnil|]. by intros opt -> ?. }
  split; [done|]. unfold mapping_report. by rewrite Hgen.
Qed.

Lemma unnamed_options_vanish_witness :
  generate_clean_xml_from_root unnamed_doc = Ok (Document (root_attrib unnamed_doc) [])
  ∧ mapping_report unnamed_doc = Ok [].
Proof. apply (unnamed_options_vanish unnamed_doc). by_compute. Defined.

(** ** Step 2 is order-independent *)

(** X11.  [value_to_deps] does not depend on the order of the flat items. *)
Theorem unify_permutation (fl1 fl2 : list flat_item) :
  fl1 ≡ₚ fl2 → unify fl1 = unify fl2.
Proof.
  intros Hp. apply map_eq. intros v. rewrite !unify_lookup.
  assert (deps_for v fl1 = deps_for v fl2) as ->.
  { apply set_eq. intros d. rewrite !elem_of_deps_for.
    split; intros (it & Hit & ?); exists it; split; try done.
    - by rewrite <-Hp.
    - by rewrite Hp. }
  destruct (decide (v ∈ fi_value <$> fl1)) as [H1|H1];
    destruct (decide (v ∈ fi_value <$> fl2)) as [H2|H2]; try done.
  - destruct H2. by rewrite <-Hp.
  - destruct H1. by rewrite Hp.
Qed.

Lemma unify_permutation_witness :
  unify [FlatItem "A" "1" {[Some "d1"]}; FlatItem "B" "1" {[Some "d2"]}]
  = unify [FlatItem "B" "1" {[Some "d2"]}; FlatItem "A" "1" {[Some "d1"]}].
Proof. apply unify_permutation. apply perm_swap. Defined.

(** ** The export pass: identifiers *)

Lemma final_assignments_spec root_original root_clean :
  final_group_assignments
    (hybrid_numbering (index_original root_original) (cleaned_groups_of root_clean))
  = spec_final_ids (original_sets root_original)
                   (cg_values_set <$> cleaned_groups_of root_clean).
Proof.
  destruct (index_original_spec root_original) as (Hcount & _ & Hmap).
  unfold hybrid_numbering, spec_final_ids, original_sets. rewrite Hcount.
  destruct (numbering_spec (raw_set <$> root_options root_original) _ Hmap
              (cleaned_groups_of root_clean)) as (_ & Hassign & _).
  rewrite length_fmap in Hassign. apply Hassign.
Qed.

Lemma assignment_lookup root_original root_clean j cg gid :
  zip (cleaned_groups_of root_clean)
      (final_group_assignments
         (hybrid_numbering (index_original root_original)
            (cleaned_groups_of root_clean))) !! j = Some (cg, gid) →
  cg ∈ cleaned_groups_of root_clean
  ∧ gid = spec_final_id (original_sets root_original)
            (fresh_sets (original_sets root_original)
               (cg_values_set <$> cleaned_groups_of root_clean))
            (cg_values_set cg).
Proof.
  intros [Hcg Hgid]%lookup_zip_Some. split; [by eapply list_elem_of_lookup_2|].
  rewrite final_assignments_spec in Hgid. unfold spec_final_ids in Hgid.
  rewrite list_lookup_fmap, list_lookup_fmap, Hcg in Hgid. by injection Hgid.
Qed.

Lemma gid_of_nonempty n : gid_of n ≠ "".
Proof. done. Qed.

Lemma find_matched_not_in m fvs l : fvs ∉ l → find_matched m fvs l = None.
Proof.
  induction l as [|ogs l IH]; [done|]. intros [Hne Hl]%not_elem_of_cons. simpl.
  destruct (decide (ogs = fvs)) as [->|_]; [done|]. by apply IH.
Qed.

Lemma find_matched_in m fvs l gid :
  fvs ∈ l → m !! fvs = Some gid → find_matched m fvs l = Some gid.
Proof.
  intros Hin Hm. induction l as [|ogs l IH]; [by apply elem_of_nil in Hin|].
  simpl. destruct (decide (ogs = fvs)) as [->|Hne].
  - by rewrite Hm.
  - apply IH. apply elem_of_cons in Hin as [?|?]; [congruence|done].
Qed.

Lemma original_sets_of_original root_original v s :
  s ∈ original_sets_of root_original v → s ∈ original_sets root_original.
Proof.
  intros (opt & Hopt & _ & <-)%elem_of_original_sets_of.
  by apply list_elem_of_fmap_2.
Qed.

Lemma original_set_lookup root_original s j :
  first_index s (original_sets root_original) = Some j →
  ∃ opt, root_options root_original !! j = Some opt ∧ raw_set opt = s.
Proof.
  intros [Hj _]%first_index_Some. unfold original_sets in Hj.
  rewrite list_lookup_fmap in Hj.
  destruct (root_options root_original !! j) as [opt|]; [|done].
  injection Hj as <-. eauto.
Qed.

(** The Original Group ID of a row, case by case. *)
Lemma original_group_id_cases root_original fvs v :
  let l := original_sets_of root_original v in
  let gid := original_group_id_of (index_original root_original) fvs l in
  (l = [] ∧ gid = "")
  ∨ (∃ j s, (s = fvs ∨ fvs ∉ l) ∧ s ∈ l
            ∧ first_index s (original_sets root_original) = Some j
            ∧ gid = gid_of (S j)).
Proof.
  intros l gid. subst gid.
  destruct (index_original_spec root_original) as (_ & _ & Hmap).
  fold (original_sets root_original) in Hmap.
  destruct l as [|first rest] eqn:Hl; [by left|right].
  assert (∀ s, s ∈ first :: rest →
    ∃ j, first_index s (original_sets root_original) = Some j
         ∧ original_group_set_to_id (index_original root_original) !! s
           = Some (gid_of (S j))) as Hreg.
  { intros s Hs. rewrite <-Hl in Hs. apply original_sets_of_original in Hs.
    destruct (first_index_is_Some _ _ Hs) as [j Hj]. exists j.
    by rewrite Hmap, Hj. }
  unfold original_group_id_of.
  destruct (decide (fvs ∈ first :: rest)) as [Hin|Hout].
  - destruct (Hreg fvs Hin) as (j & Hj & Hm).
    rewrite (find_matched_in _ _ _ _ Hin Hm).
    rewrite decide_True by apply gid_of_nonempty.
    exists j, fvs. split_and!; auto.
  - rewrite find_matched_not_in by done.
    destruct (Hreg first) as (j & Hj & Hm); [by left|].
    rewrite Hm. simpl. exists j, first. split_and!; auto. by left.
Qed.

(** X12.  Traceability of the Original Group ID: it is empty exactly when
    the value occurs in no original record; otherwise it is the identifier
    G(j+1) of an original record, the j-th in document order counted from 0,
    that contains the value among its value tokens. *)
Theorem original_group_id_traceable (root_original root_clean : document) :
  Forall (λ r,
      (original_group_id r = ""
       ∧ ∀ opt, opt ∈ root_options root_original → value_id r ∉ raw_values opt)
      ∨ (∃ j opt, root_options root_original !! j = Some opt
                  ∧ value_id r ∈ raw_values opt
                  ∧ original_group_id r = gid_of (S j)))
    (export_rows root_original root_clean).
Proof.
  apply Forall_forall.
  intros r (i & cg & gid & v & _ & ->)%elem_of_export_rows. simpl.
  rewrite index_original_sets.
  destruct (original_group_id_cases root_original (cg_values_set cg) v)
    as [[Hnil ->]|(j & s & _ & Hs & Hj & ->)].
  - left. split; [done|]. intros opt Hopt Hv.
    assert (raw_set opt ∈ original_sets_of root_original v) as Hin.
    { apply elem_of_original_sets_of. by exists opt. }
    rewrite Hnil in Hin. by apply elem_of_nil in Hin.
  - right. destruct (original_set_lookup _ _ _ Hj) as (opt & Hopt & Hset).
    exists j, opt. split_and!; [done| |done].
    apply elem_of_original_sets_of in Hs as (opt' & _ & Hv & Hset').
    apply (elem_of_list_to_set (C:=gset string)).
    fold (raw_set opt). rewrite Hset, <-Hset'. by apply elem_of_list_to_set.
Qed.

(** X13.  A row is "Non-modified" in its Group Status exactly when its
    Original Group ID and its Final Group ID are the same identifier. *)
Theorem status_iff_same_group_id (root_original root_clean : document) :
  Forall (λ r, group_status r = "Non-modified"
               ↔ original_group_id r = final_group_id r)
    (export_rows root_original root_clean).
Proof.
  apply Forall_forall.
  intros r (i & cg & gid & v & Hi & ->)%elem_of_export_rows. simpl.
  apply list_elem_of_lookup_2, elem_of_report_entries in Hi as [Hp Hv].
  apply list_elem_of_lookup in Hp as [k Hk].
  apply assignment_lookup in Hk as [Hcg ->].
  rewrite index_original_sets. unfold group_status_of.
  set (fvs := cg_values_set cg).
  set (fresh := fresh_sets (original_sets root_original)
                  (cg_values_set <$> cleaned_groups_of root_clean)).
  assert (v ∈ fvs) as Hvin.
  { apply list_elem_of_fmap in Hcg as (o & -> & _). simpl.
    apply elem_of_list_to_set. exact Hv. }
  destruct (original_group_id_cases root_original fvs v)
    as [[Hnil Hgid]|(j & s & Hcase & Hs & Hj & Hgid)]; rewrite Hgid.
  - rewrite Hnil. rewrite decide_False by apply not_elem_of_nil.
    split; [done|]. intros Heq. exfalso. symmetry in Heq. revert Heq.
    unfold spec_final_id. repeat case_match; try apply gid_of_nonempty.
    assert (fvs ∈ fresh) as Hf.
    { apply elem_of_uniq, list_elem_of_filter. split.
      - by apply first_index_None.
      - by apply (list_elem_of_fmap_2 cg_values_set). }
    apply first_index_is_Some in Hf as [? ?]. congruence.
  - destruct (decide (fvs ∈ original_sets_of root_original v)) as [Hin|Hout].
    + destruct Hcase as [->|?]; [|done]. split; [intros _|done].
      unfold spec_final_id. by rewrite Hj.
    + destruct Hcase as [->|_]; [done|]. split; [done|]. intros Heq. exfalso.
      assert (fvs ∉ original_sets root_original) as HnO.
      { intros (opt & Hset & Hopt)%list_elem_of_fmap. apply Hout.
        apply elem_of_original_sets_of. exists opt. split_and!; [done| |done].
        rewrite Hset in Hvin. by apply elem_of_list_to_set in Hvin. }
      assert (fvs ∈ fresh) as Hf.
      { apply elem_of_uniq, list_elem_of_filter. split; [done|].
        by apply (list_elem_of_fmap_2 cg_values_set). }
      destruct (spec_final_id_new _ fresh fvs HnO Hf) as (k' & _ & Hnew).
      rewrite Hnew in Heq. apply gid_of_inj in Heq.
      apply first_index_lt in Hj. lia.
Qed.

Lemma spec_final_id_inj original clean s1 s2 :
  s1 ∈ clean → s2 ∈ clean →
  spec_final_id original (fresh_sets original clean) s1
  = spec_final_id original (fresh_sets original clean) s2 →
  s1 = s2.
Proof.
  intros H1 H2 Heq.
  assert (∀ s, s ∈ clean → s ∉ original → s ∈ fresh_sets original clean) as Hfresh.
  { intros s Hs Hn. by apply elem_of_uniq, list_elem_of_filter. }
  destruct (decide (s1 ∈ original)) as [Ho1|Hn1];
    destruct (decide (s2 ∈ original)) as [Ho2|Hn2].
  - destruct (spec_final_id_original original (fresh_sets original clean) s1 Ho1)
      as (j1 & Hj1 & _ & E1).
    destruct (spec_final_id_original original (fresh_sets original clean) s2 Ho2)
      as (j2 & Hj2 & _ & E2).
    rewrite E1, E2 in Heq. apply gid_of_inj in Heq. injection Heq as ->.
    apply first_index_Some in Hj1 as [Hj1 _]. apply first_index_Some in Hj2 as [Hj2 _].
    congruence.
  - exfalso. symmetry in Heq. revert Heq.
    apply spec_final_id_new_fresh; [done|by apply Hfresh|done].
  - exfalso. revert Heq.
    apply spec_final_id_new_fresh; [done|by apply Hfresh|done].
  - apply (spec_final_id_new_inj original (fresh_sets original clean));
      [done|by apply Hfresh|done|by apply Hfresh|done].
Qed.

(** X14.  The hybrid numbering is a function of the value set and an
    injective one: two cleaned groups get the same Final Group ID exactly
    when their value sets are equal. *)
Theorem final_ids_identify_value_sets (root_original root_clean : document) :
  let assigned :=
    zip (cleaned_groups_of root_clean)
        (final_group_assignments
           (hybrid_numbering (index_original root_original)
              (cleaned_groups_of root_clean))) in
  length assigned = length (root_options root_clean)
  ∧ Forall (λ p, Forall (λ q, p.2 = q.2 ↔ cg_values_set p.1 = cg_values_set q.1)
                        assigned)
           assigned.
Proof.
  intros assigned. split.
  - unfold assigned. rewrite length_zip, hybrid_numbering_length.
    unfold cleaned_groups_of. rewrite length_fmap. lia.
  - apply Forall_forall. intros [cg1 a] [i Hi]%list_elem_of_lookup.
    apply Forall_forall. intros [cg2 b] [j Hj]%list_elem_of_lookup. simpl.
    apply assignment_lookup in Hi as [Hcg1 ->].
    apply assignment_lookup in Hj as [Hcg2 ->].
    split; [|by intros ->].
    apply spec_final_id_inj; by apply (list_elem_of_fmap_2 cg_values_set).
Qed.

Lemma NoDup_bind_lookup {A B} (f : A → list B) (l : list A) i j x y v :
  NoDup (l ≫= f) → l !! i = Some x → l !! j = Some y →
  v ∈ f x → v ∈ f y → i = j.
Proof.
  revert i j. induction l as [|z l IH]; intros i j Hnd Hi Hj Hx Hy; [done|].
  rewrite bind_cons in Hnd. apply NoDup_app in Hnd as (_ & Hdisj & Hnd).
  destruct i as [|i], j as [|j]; simpl in *.
  - done.
  - injection Hi as ->. exfalso. apply (Hdisj v Hx).
    apply list_elem_of_bind. exists y. split; [done|]. by eapply list_elem_of_lookup_2.
  - injection Hj as ->. exfalso. apply (Hdisj v Hy).
    apply list_elem_of_bind. exists x. split; [done|]. by eapply list_elem_of_lookup_2.
  - f_equal. by eapply IH.
Qed.

Lemma row_of_option root_original root_clean r :
  r ∈ export_rows root_original root_clean →
  ∃ k o, root_options root_clean !! k = Some o
         ∧ value_id r ∈ raw_values o
         ∧ final_group_name r = Str.join (_split_field (default "" (opt_name o)))
         ∧ final_group_id r
           = spec_final_id (original_sets root_original)
               (fresh_sets (original_sets root_original)
                  (cg_values_set <$> cleaned_groups_of root_clean))
               (raw_set o).
Proof.
  intros (i & cg & gid & v & Hi & ->)%elem_of_export_rows. simpl.
  apply list_elem_of_lookup_2, elem_of_report_entries in Hi as [Hp Hv].
  apply list_elem_of_lookup in Hp as [k Hk].
  pose proof Hk as [Hcg _]%lookup_zip_Some.
  apply assignment_lookup in Hk as [_ ->].
  unfold cleaned_groups_of in Hcg. rewrite list_lookup_fmap in Hcg.
  destruct (root_options root_clean !! k) as [o|] eqn:Ho; [|done].
  injection Hcg as <-. by exists k, o.
Qed.

(** X15.  In the report of a canonicalisation, the Final Group ID tells the
    <option> of the output apart: two rows carry the same Final Group ID
    exactly when their values sit in the same output <option>. *)
Theorem final_id_identifies_option (root root_clean : document) :
  generate_clean_xml_from_root root = Ok root_clean →
  Forall (λ r1, Forall (λ r2,
      final_group_id r1 = final_group_id r2
      ↔ ∃ o, o ∈ root_options root_clean
             ∧ value_id r1 ∈ raw_values o ∧ value_id r2 ∈ raw_values o)
      (export_rows root root_clean))
    (export_rows root root_clean).
Proof.
  intros Hgen. pose proof (generate_inv _ _ Hgen) as ->.
  pose proof (NoDup_canonical_values root) as Hnd.
  apply Forall_forall. intros r1 Hr1. apply Forall_forall. intros r2 Hr2.
  destruct (row_of_option _ _ _ Hr1) as (k1 & o1 & Ho1 & Hv1 & _ & Hid1).
  destruct (row_of_option _ _ _ Hr2) as (k2 & o2 & Ho2 & Hv2 & _ & Hid2).
  assert (∀ o, o ∈ root_options (canonical root) →
               cg_values_set (clean_group_of o) = raw_set o) as Hset by done.
  assert (∀ o, o ∈ root_options (canonical root) →
               raw_set o ∈ cg_values_set <$> cleaned_groups_of (canonical root)) as Hin.
  { intros o Ho. apply list_elem_of_fmap. exists (clean_group_of o).
    split; [done|]. by apply list_elem_of_fmap_2. }
  rewrite Hid1, Hid2. split.
  - intros Heq%spec_final_id_inj.
    + exists o1. split_and!; [by eapply list_elem_of_lookup_2|done|].
      apply (elem_of_list_to_set (C:=gset string)). fold (raw_set o1).
      rewrite Heq. by apply elem_of_list_to_set.
    + apply Hin. by eapply list_elem_of_lookup_2.
    + apply Hin. by eapply list_elem_of_lookup_2.
  - intros (o & [k Hk]%list_elem_of_lookup & Hv1' & Hv2').
    assert (k1 = k) as -> by by eapply (NoDup_bind_lookup raw_values).
    assert (k2 = k) as -> by by eapply (NoDup_bind_lookup raw_values).
    congruence.
Qed.

Lemma final_id_identifies_option_witness :
  Forall (λ r1, Forall (λ r2,
      final_group_id r1 = final_group_id r2
      ↔ ∃ o, o ∈ root_options (canonical report_doc_original)
             ∧ value_id r1 ∈ raw_values o ∧ value_id r2 ∈ raw_values o)
      (export_rows report_doc_original (canonical report_doc_original)))
    (export_rows report_doc_original (canonical report_doc_original)).
Proof.
  apply (final_id_identifies_option report_doc_original (canonical report_doc_original)).
  by vm_compute.
Defined.

(** ** The export pass: dependency status *)

Lemma export_row_inv root_original root_clean r :
  r ∈ export_rows root_original root_clean →
  ∃ i k o gid v,
    root_options root_clean !! k = Some o
    ∧ v ∈ raw_values o
    ∧ r = make_row (index_original root_original) (original_names root_original)
            (clean_group_of o) gid (1 + i) v.
Proof.
  intros (i & cg & gid & v & Hi & ->)%elem_of_export_rows.
  apply list_elem_of_lookup_2, elem_of_report_entries in Hi as [Hp Hv].
  apply list_elem_of_lookup in Hp as [k Hk].
  apply lookup_zip_Some in Hk as [Hcg _].
  unfold cleaned_groups_of in Hcg. rewrite list_lookup_fmap in Hcg.
  destruct (root_options root_clean !! k) as [o|] eqn:Ho; [|done].
  injection Hcg as <-. by exists i, k, o, gid, v.
Qed.

Lemma list_to_set_sorted_strings (l : list string) :
  list_to_set (sorted_strings l) =@{gset string} list_to_set l.
Proof.
  apply set_eq. intros x. rewrite !elem_of_list_to_set.
  unfold sorted_strings. by rewrite merge_sort_Permutation.
Qed.

Lemma register_value_deps values_set deps st values v :
  default ∅ (value_to_original_deps
               (foldl (register_value values_set deps) st values) !! v)
  = default ∅ (value_to_original_deps st !! v)
    ∪ (if decide (v ∈ values) then list_to_set deps else ∅).
Proof.
  revert st. induction values as [|x values IH]; intros st.
  - destruct (decide (v ∈ [])) as [[]%elem_of_nil|_].
    cbn [foldl]. by rewrite union_empty_r_L.
  - cbn [foldl]. rewrite IH. cbn [register_value value_to_original_deps].
    destruct (decide (x = v)) as [->|Hne].
    + rewrite lookup_insert_eq. cbn [default].
      destruct (decide (v ∈ v :: values)) as [_|Hn]; [|destruct Hn; by left].
      unfold id. destruct (decide (v ∈ values)).
      * by rewrite <-(assoc_L (∪)), (idemp_L (∪)).
      * by rewrite union_empty_r_L.
    + rewrite lookup_insert_ne by done.
      destruct (decide (v ∈ values)) as [Hin|Hout];
        destruct (decide (v ∈ x :: values)) as [Hin'|Hout']; try done.
      * destruct Hout'. by right.
      * by apply elem_of_cons in Hin' as [?|?].
Qed.

Lemma index_original_deps_fold st opts v :
  default ∅ (value_to_original_deps (foldl index_original_option st opts) !! v)
  = default ∅ (value_to_original_deps st !! v)
    ∪ ⋃ (dep_string_set <$> filter (λ opt, v ∈ raw_values opt) opts).
Proof.
  revert st. induction opts as [|opt opts IH]; intros st.
  - cbn [foldl]. by rewrite filter_nil, fmap_nil, union_list_nil, union_empty_r_L.
  - cbn [foldl]. rewrite IH. unfold index_original_option.
    rewrite register_value_deps. cbn [value_to_original_deps].
    rewrite list_to_set_sorted_strings.
    fold (raw_values opt). fold (dep_string_set opt).
    destruct (decide (v ∈ raw_values opt)) as [Hin|Hout].
    + rewrite filter_cons_True by done. rewrite fmap_cons, union_list_cons.
      by rewrite (assoc_L (∪)).
    + rewrite filter_cons_False by done. by rewrite union_empty_r_L.
Qed.

(** [value_to_original_deps.get(v, [])] as a set. *)
Lemma index_original_deps root_original v :
  default ∅ (value_to_original_deps (index_original root_original) !! v)
  = original_dep_strings root_original v.
Proof.
  unfold index_original. rewrite index_original_deps_fold. simpl.
  rewrite lookup_empty. simpl. by rewrite union_empty_l_L.
Qed.

(** X16.  The Dependency Status of a row is "Non-modified" exactly when the
    "id:name" strings of the <option> of the cleaned document that holds the
    value are, as a set, the union of the "id:name" strings of the original
    records that hold it; it is "Modified" otherwise.  The two dependents
    columns list these two sets, sorted and joined by ";". *)
Theorem dependency_status_correct (root_original root_clean : document) :
  Forall (λ r, ∃ o,
      o ∈ root_options root_clean
      ∧ value_id r ∈ raw_values o
      ∧ (dependency_status r = "Non-modified"
         ↔ original_dep_strings root_original (value_id r) = dep_string_set o)
      ∧ (dependency_status r = "Modified"
         ↔ original_dep_strings root_original (value_id r) ≠ dep_string_set o)
      ∧ original_dependents r
        = String.concat ";"
            (sorted_strings (elements (original_dep_strings root_original (value_id r))))
      ∧ final_dependents r
        = String.concat ";" (sorted_strings (elements (dep_string_set o))))
    (export_rows root_original root_clean).
Proof.
  apply Forall_forall.
  intros r (i & k & o & gid & v & Ho & Hv & ->)%export_row_inv.
  exists o. simpl. rewrite index_original_deps, list_to_set_sorted_strings.
  fold (dep_string_set o).
  split_and!; [by eapply list_elem_of_lookup_2|done| | |done|done].
  - by case_decide.
  - by case_decide.
Qed.

(** ** The export pass: original value name *)

Lemma first_name_app fl1 fl2 v :
  first_name (fl1 ++ fl2) v
  = match first_name fl1 v with
    | Some n => Some n
    | None => first_name fl2 v
    end.
Proof.
  unfold first_name. rewrite filter_app.
  by destruct (filter (λ it, fi_value it = v) fl1).
Qed.

Lemma first_name_cons it fl v :
  first_name (it :: fl) v
  = if decide (fi_value it = v) then Some (fi_name it) else first_name fl v.
Proof.
  unfold first_name. case_decide.
  - by rewrite filter_cons_True.
  - by rewrite filter_cons_False.
Qed.

Lemma note_original_names_lookup values deps m ps v :
  v ≠ "" →
  foldl (note_original_name values) m ps !! v
  = match m !! v with
    | Some x => Some x
    | None => first_name ((λ p, FlatItem p.2 (pair_value values p.1) deps) <$> ps) v
    end.
Proof.
  intros Hv. revert m. induction ps as [|[i name] ps IH]; intros m.
  - simpl. by destruct (m !! v).
  - cbn [foldl]. rewrite IH, fmap_cons, first_name_cons.
    cbn [note_original_name fst snd fi_value fi_name].
    destruct (decide (pair_value values i ≠ "")) as [Hne|He].
    + destruct (m !! pair_value values i) as [x|] eqn:Hx.
      * destruct (m !! v) eqn:Hm; [done|]. case_decide as Heq; [|done].
        rewrite Heq in Hx. congruence.
      * destruct (decide (pair_value values i = v)) as [Heq|Hne'].
        -- rewrite Heq. rewrite lookup_insert_eq. rewrite Heq in Hx. by rewrite Hx.
        -- rewrite lookup_insert_ne by done. by destruct (m !! v).
    + apply dec_stable in He. destruct (m !! v); [done|].
      rewrite decide_False; [done|]. congruence.
Qed.

Lemma original_names_option_lookup m opt v :
  v ≠ "" →
  original_names_option m opt !! v
  = match m !! v with
    | Some x => Some x
    | None => first_name (flat_items opt) v
    end.
Proof.
  intros Hv. unfold original_names_option.
  rewrite (note_original_names_lookup _ (list_to_set (dep_ids_of opt))) by done.
  destruct (m !! v); [done|]. f_equal. rewrite fmap_imap.
  unfold flat_items, names_of, values_of. by rewrite !_split_field_split.
Qed.

Lemma original_names_fold m opts v :
  v ≠ "" →
  foldl original_names_option m opts !! v
  = match m !! v with
    | Some x => Some x
    | None => first_name (opts ≫= flat_items) v
    end.
Proof.
  intros Hv. revert m. induction opts as [|opt opts IH]; intros m.
  - simpl. by destruct (m !! v).
  - cbn [foldl]. rewrite IH, original_names_option_lookup by done.
    rewrite bind_cons, first_name_app. by destruct (m !! v).
Qed.

(** [value_to_original_name] holds, for a non-empty value, the name of the
    first flat item that carries it. *)
Lemma original_names_lookup root v :
  v ≠ "" → original_names root !! v = first_name (flat (flatten root)) v.
Proof.
  intros Hv. unfold original_names. rewrite original_names_fold by done.
  by rewrite lookup_empty, flatten_flat.
Qed.

Lemma original_names_empty_key root : original_names root !! "" = None.
Proof.
  unfold original_names.
  assert (∀ opts m, m !! "" = None → foldl original_names_option m opts !! "" = None)
    as Hgen; [|by apply Hgen].
  induction opts as [|opt opts IH]; intros m Hm; [done|].
  cbn [foldl]. apply IH. unfold original_names_option.
  generalize (imap pair (_split_field (default "" (opt_name opt)))).
  intros ps. revert m Hm. induction ps as [|[i n] ps IHps]; intros m Hm; [done|].
  cbn [foldl]. apply IHps. unfold note_original_name.
  case_decide as Hne; [|done]. destruct (m !! pair_value _ i); [done|].
  by rewrite lookup_insert_ne.
Qed.

(** X17.  In the report of a canonicalisation the Original Value Name of a
    row is the name of the first name/value pair of the input that carries
    the value (the fallback to the empty string is never taken), and it is
    one of the names of the row's Final Group Name. *)
Theorem original_value_name_first_seen (root root_clean : document) :
  generate_clean_xml_from_root root = Ok root_clean →
  Forall (λ r, ∃ it rest,
      filter (λ it, fi_value it = value_id r) (flat (flatten root)) = it :: rest
      ∧ original_value_name r = fi_name it
      ∧ original_value_name r ∈ _split_field (final_group_name r))
    (export_rows root root_clean).
Proof.
  intros Hgen. pose proof (generate_inv _ _ Hgen) as ->.
  apply Forall_forall.
  intros r (i & k & o & gid & v & Ho & Hv & ->)%export_row_inv.
  apply list_elem_of_lookup_2 in Ho.
  assert (v ∈ doc_values (canonical root)) as Hdv
    by (apply elem_of_doc_values; eauto).
  apply elem_of_canonical_values in Hdv as [Hne Hpaired].
  apply elem_of_flat_values, list_elem_of_fmap in Hpaired as (it0 & Hv0 & Hit0).
  destruct (filter (λ it, fi_value it = v) (flat (flatten root))) as [|it rest] eqn:Hf.
  { assert (it0 ∈ filter (λ it, fi_value it = v) (flat (flatten root))) as Hin
      by by apply list_elem_of_filter.
    rewrite Hf in Hin. by apply elem_of_nil in Hin. }
  assert (it ∈ flat (flatten root) ∧ fi_value it = v) as [Hit Hitv].
  { assert (it ∈ filter (λ it, fi_value it = v) (flat (flatten root))) as Hin
      by (rewrite Hf; by left).
    by apply list_elem_of_filter in Hin as [? ?]. }
  exists it, rest. cbn [make_row value_id original_value_name final_group_name].
  rewrite original_names_lookup by done. unfold first_name. rewrite Hf.
  split_and!; [done|done|]. cbn [head fmap option_fmap option_map default].
  simpl in Ho. apply list_elem_of_fmap in Ho as (g & -> & Hg).
  cbn [clean_group_of output_option opt_name opt_value cg_names default].
  unfold id.
  rewrite (output_names root g Hg).
  rewrite (output_names root g Hg).
  unfold raw_values in Hv. cbn [output_option opt_value default] in Hv.
  unfold id in Hv. rewrite (output_values root g Hg) in Hv.
  apply list_elem_of_filter in Hv as [_ Hv].
  pose proof Hg as (it1 & _ & ->)%elem_of_groups_of.
  apply elem_of_group_values in Hv as (it2 & _ & _ & Hk).
  apply elem_of_group_names. exists it. split_and!; [done|done|].
  by rewrite Hitv.
Qed.

Lemma original_value_name_first_seen_witness :
  Forall (λ r, ∃ it rest,
      filter (λ it, fi_value it = value_id r) (flat (flatten report_doc_original))
      = it :: rest
      ∧ original_value_name r = fi_name it
      ∧ original_value_name r ∈ _split_field (final_group_name r))
    (export_rows report_doc_original (canonical report_doc_original)).
Proof.
  apply (original_value_name_first_seen report_doc_original
           (canonical report_doc_original)).
  by vm_compute.
Defined.

(** ** The text-generation client *)

(** X18.  An engine that was constructed has no Grok key and no Grok client
    (with a Grok key the constructor raises [NameError]), so [generate]
    never falls back: its result does not depend on what Grok would answer,
    and it is either the content OpenAI returned, with [active_model] set to
    the OpenAI label, or the message that no model is available. *)
Theorem constructed_engine_never_uses_grok
    (groq_secret openai_secret : option string) (self : AIEngine.engine) :
  AIEngine.init groq_secret openai_secret = AIEngine.Constructed self →
  AIEngine.truthy groq_secret = false
  ∧ AIEngine.grok_client self = false
  ∧ (∀ openai grok grok',
       AIEngine.generate self openai grok = AIEngine.generate self openai grok')
  ∧ (∀ openai grok,
       (∃ text, openai = AIEngine.Content text
                ∧ AIEngine.truthy openai_secret = true
                ∧ AIEngine.generate self openai grok
                  = (text, AIEngine.set_active_model self AIEngine.openai_label))
       ∨ ((AIEngine.generate self openai grok).1 = AIEngine.no_model
          ∧ AIEngine.grok_client (AIEngine.generate self openai grok).2 = false
          ∧ AIEngine.active_model (AIEngine.generate self openai grok).2
            ≠ Some AIEngine.grok_label)).
Proof.
  unfold AIEngine.init. destruct (AIEngine.truthy groq_secret) eqn:Hg; [done|].
  intros [= <-]. split_and!; [done|done| |].
  - intros openai grok grok'. unfold AIEngine.generate. simpl.
    by destruct (AIEngine.truthy openai_secret), openai.
  - intros openai grok. unfold AIEngine.generate. simpl.
    destruct (AIEngine.truthy openai_secret) eqn:Ho; [destruct openai|].
    + right. by split_and!.
    + right. by split_and!.
    + left. by eexists.
    + right. by split_and!.
Qed.

Lemma constructed_engine_never_uses_grok_witness :
  AIEngine.truthy (Some "") = false
  ∧ AIEngine.grok_client (AIEngine.Engine (Some "") (Some "sk") None true false) = false
  ∧ (∀ openai grok grok',
       AIEngine.generate (AIEngine.Engine (Some "") (Some "sk") None true false) openai grok
       = AIEngine.generate (AIEngine.Engine (Some "") (Some "sk") None true false) openai grok')
  ∧ (∀ openai grok,
       (∃ text, openai = AIEngine.Content text
                ∧ AIEngine.truthy (Some "sk") = true
                ∧ AIEngine.generate (AIEngine.Engine (Some "") (Some "sk") None true false)
                    openai grok
                  = (text, AIEngine.set_active_model
                             (AIEngine.Engine (Some "") (Some "sk") None true false)
                             AIEngine.openai_label))
       ∨ ((AIEngine.generate (AIEngine.Engine (Some "") (Some "sk") None true false)
             openai grok).1 = AIEngine.no_model
          ∧ AIEngine.grok_client
              (AIEngine.generate (AIEngine.Engine (Some "") (Some "sk") None true false)
                 openai grok).2 = false
          ∧ AIEngine.active_model
              (AIEngine.generate (AIEngine.Engine (Some "") (Some "sk") None true false)
                 openai grok).2 ≠ Some AIEngine.grok_label)).
Proof.
  apply (constructed_engine_never_uses_grok (Some "") (Some "sk")). reflexivity.
Defined.

(** ** What the output says about a value *)

Lemma output_option_inv root o v :
  o ∈ root_options (canonical root) → v ∈ raw_values o →
  ∃ g, g ∈ groups_of (flat (flatten root))
       ∧ o = output_option (dep_id_to_name (flatten root)) g
       ∧ v ≠ "" ∧ v ∈ g_values g
       ∧ g_deps g = deps_for v (flat (flatten root)).
Proof.
  intros Ho Hv. simpl in Ho. apply list_elem_of_fmap in Ho as (g & -> & Hg).
  exists g. unfold raw_values in Hv. cbn [output_option opt_value default] in Hv.
  unfold id in Hv. rewrite (output_values root g Hg) in Hv.
  apply list_elem_of_filter in Hv as [Hne Hv].
  split_and!; [done..|].
  pose proof Hg as (it & _ & ->)%elem_of_groups_of.
  by apply elem_of_group_values in Hv as (it' & _ & _ & <-).
Qed.

(** X19.  In the output, the <dependent> identifiers of the <option> that
    holds a value are the union of those of the input records in which the
    value is paired with a name: a value keeps every dependent of every
    record that carries it, and gains none from elsewhere. *)
Theorem output_dependents_of_value (root out : document) :
  generate_clean_xml_from_root root = Ok out →
  Forall (λ o, Forall (λ v, option_deps o = pairing_deps root v) (raw_values o))
         (root_options out).
Proof.
  intros ->%generate_inv. apply Forall_forall. intros o Ho.
  apply Forall_forall. intros v Hv.
  destruct (output_option_inv root o v Ho Hv) as (g & Hg & -> & _ & _ & Hdeps).
  by rewrite output_option_deps, Hdeps, deps_for_pairing.
Qed.

Lemma output_dependents_of_value_witness :
  Forall (λ o, Forall (λ v, option_deps o = pairing_deps C2_doc v) (raw_values o))
         (root_options (canonical C2_doc)).
Proof.
  apply (output_dependents_of_value C2_doc (canonical C2_doc)). by vm_compute.
Defined.

(** X20.  A name and the value it is paired with stay together: for every
    name/value pair of the flattener with a non-empty value, one <option>
    of the output has the name among its name tokens and the value among its
    value tokens. *)
Theorem pairs_stay_together (root out : document) :
  generate_clean_xml_from_root root = Ok out →
  Forall (λ it, fi_value it ≠ "" →
                ∃ o, o ∈ root_options out
                     ∧ fi_name it ∈ _split_field (default "" (opt_name o))
                     ∧ fi_value it ∈ raw_values o)
         (flat (flatten root)).
Proof.
  intros ->%generate_inv. apply Forall_forall. intros it Hit Hne.
  set (fl := flat (flatten root)) in *.
  set (g := group_for (unify fl) (unified_key fl it) fl).
  assert (g ∈ groups_of fl) as Hg by (apply elem_of_groups_of; eauto).
  exists (output_option (dep_id_to_name (flatten root)) g). split_and!.
  - by apply (list_elem_of_fmap_2 (output_option _)).
  - change (fi_name it ∈ _split_field (Str.join (g_names g))).
    rewrite (output_names root g Hg). apply elem_of_group_names.
    exists it. split_and!; [done..|]. by rewrite unified_key_item.
  - change (fi_value it ∈ _split_field (Str.join (g_values g))).
    rewrite (output_values root g Hg). apply list_elem_of_filter. split; [done|].
    apply elem_of_group_values. exists it. split_and!; [done..|].
    by rewrite unified_key_item.
Qed.

Lemma pairs_stay_together_witness :
  Forall (λ it, fi_value it ≠ "" →
                ∃ o, o ∈ root_options (canonical misaligned_doc)
                     ∧ fi_name it ∈ _split_field (default "" (opt_name o))
                     ∧ fi_value it ∈ raw_values o)
         (flat (flatten misaligned_doc)).
Proof.
  apply (pairs_stay_together misaligned_doc (canonical misaligned_doc)).
  by vm_compute.
Defined.

(** The positions are not kept, though: "B" is paired with "1" in the input
    and, once the output "A,B,C" / "1,2" is flattened again, with "2". *)
Example pairs_not_aligned :
  (λ it, (fi_name it, fi_value it)) <$> flat (flatten misaligned_doc)
  = [("A", "1"); ("B", "1"); ("C", "2")]
  ∧ (λ it, (fi_name it, fi_value it)) <$> flat (flatten (canonical misaligned_doc))
    = [("A", "1"); ("B", "2"); ("C", "2")].
Proof. by vm_compute. Qed.

(** ** The report of a document that is already canonical *)

(** X21.  For a document that is already canonical, with a name token in
    every <option>, no more value tokens than name tokens and an [id] on
    every <dependent>, the report marks no group as modified: every row has
    Group Status "Non-modified", and there is a report. *)
Theorem canonical_input_not_modified (root : document) :
  already_canonical root →
  all_named root →
  names_cover_values root →
  ids_present root →
  ∃ rows, mapping_report root = Ok rows
          ∧ Forall (λ r, group_status r = "Non-modified") rows.
Proof.
  intros (_ & Hdistinct & Hminimal) Hnamed Hcover Hids.
  exists (export_rows root (canonical root)). split.
  { unfold mapping_report. by rewrite generate_Ok. }
  destruct (minimal_same_groups root Hdistinct Hminimal Hnamed Hcover) as [_ Hsame].
  apply Forall_forall.
  intros r (i & k & o & gid & v & Ho & Hv & ->)%export_row_inv.
  destruct (Forall2_lookup_r _ _ _ _ _ Hsame Ho) as (o1 & Ho1 & _ & Hvs).
  pose proof (make_row_status root (original_names root) (clean_group_of o)
                gid (1 + i) v) as (Hiff & _ & _).
  apply Hiff. cbn [make_row value_id]. exists o1. split_and!.
  - by eapply list_elem_of_lookup_2.
  - apply (elem_of_list_to_set (C:=gset string)).
    change (v ∈ value_set_of o1). rewrite <-Hvs. by apply elem_of_list_to_set.
  - symmetry. exact Hvs.
Qed.

Lemma canonical_input_not_modified_witness :
  ∃ rows, mapping_report C4_canonical_doc = Ok rows
          ∧ Forall (λ r, group_status r = "Non-modified") rows.
Proof. apply (canonical_input_not_modified C4_canonical_doc); by_compute. Defined.
